(** * FSPT: host-side BVH builder, serializer, autofocus probe and render loop

    Shallow embedding of [src/bvh.js] and of the host-side parts of
    [src/main.js] (getMaterial, maskBVHBuffer, the packing loop of initBVH,
    shootAutoFocusRay, clear, tick). *)

From Stdlib Require Import QArith Qround ZArith Lia Lqa Sorted.
From stdpp Require Import base list gmap sets strings.

(** ** JavaScript numbers

    A JS number is modelled as an exact rational extended with the IEEE
    infinities and NaN; rounding is not modelled. The operations follow
    the IEEE rules for the special values (signed zero is not modelled). *)

Inductive num : Type :=
| Fin (q : Q)
| PInf
| NInf
| NaN.

Definition qsign (q : Q) : comparison := Qcompare q 0.

Definition nneg (a : num) : num :=
  match a with
  | Fin q => Fin (Qred (- q))
  | PInf => NInf
  | NInf => PInf
  | NaN => NaN
  end.

Definition nadd (a b : num) : num :=
  match a, b with
  | NaN, _ | _, NaN => NaN
  | PInf, NInf | NInf, PInf => NaN
  | PInf, _ | _, PInf => PInf
  | NInf, _ | _, NInf => NInf
  | Fin x, Fin y => Fin (Qred (x + y))
  end.

Definition nsub (a b : num) : num := nadd a (nneg b).

(** Infinity times a value of the given sign. *)
Definition inf_times (pos : bool) (c : comparison) : num :=
  match c with
  | Eq => NaN
  | Gt => if pos then PInf else NInf
  | Lt => if pos then NInf else PInf
  end.

Definition nsgn (a : num) : comparison :=
  match a with
  | Fin q => qsign q
  | PInf => Gt
  | NInf => Lt
  | NaN => Eq
  end.

Definition nmul (a b : num) : num :=
  match a, b with
  | NaN, _ | _, NaN => NaN
  | PInf, _ => inf_times true (nsgn b)
  | NInf, _ => inf_times false (nsgn b)
  | _, PInf => inf_times true (nsgn a)
  | _, NInf => inf_times false (nsgn a)
  | Fin x, Fin y => Fin (Qred (x * y))
  end.

Definition ndiv (a b : num) : num :=
  match a, b with
  | NaN, _ | _, NaN => NaN
  | (PInf | NInf), (PInf | NInf) => NaN
  | Fin _, (PInf | NInf) => Fin 0
  | PInf, Fin y => match qsign y with Lt => NInf | _ => PInf end
  | NInf, Fin y => match qsign y with Lt => PInf | _ => NInf end
  | Fin x, Fin y =>
      match qsign y with
      | Eq => match qsign x with Eq => NaN | Gt => PInf | Lt => NInf end
      | _ => Fin (Qred (x / y))
      end
  end.

(** [a < b]: false as soon as one side is NaN. *)
Definition nlt (a b : num) : bool :=
  match a, b with
  | NaN, _ | _, NaN => false
  | NInf, NInf => false
  | NInf, _ => true
  | _, NInf => false
  | PInf, _ => false
  | Fin _, PInf => true
  | Fin x, Fin y => negb (Qle_bool y x)
  end.

Definition nle (a b : num) : bool :=
  match a, b with
  | NaN, _ | _, NaN => false
  | _, _ => negb (nlt b a)
  end.

Definition ngt (a b : num) : bool := nlt b a.

(** Math.min / Math.max: NaN if either argument is NaN. *)
Definition Math_min (a b : num) : num :=
  match a, b with
  | NaN, _ | _, NaN => NaN
  | _, _ => if nlt b a then b else a
  end.

Definition Math_max (a b : num) : num :=
  match a, b with
  | NaN, _ | _, NaN => NaN
  | _, _ => if nlt a b then b else a
  end.

Definition nnat (n : nat) : num := Fin (inject_Z (Z.of_nat n)).

(** ** Vec3 (src/vector.js) *)

Record vec3 : Type := V3 { vx : num; vy : num; vz : num }.

(** [v[axis]]; an axis outside 0..2 reads [undefined], which compares
    like NaN. *)
Definition vget (v : vec3) (axis : nat) : num :=
  match axis with
  | 0 => vx v
  | 1 => vy v
  | 2 => vz v
  | _ => NaN
  end.

Definition vmap2 (f : num -> num -> num) (a b : vec3) : vec3 :=
  V3 (f (vx a) (vx b)) (f (vy a) (vy b)) (f (vz a) (vz b)).

(** Modelled from the spec: Vec3.min and Vec3.max of vector.js (not in
    the sources), componentwise Math.min / Math.max. *)
Definition Vec3_min (a b : vec3) : vec3 := vmap2 Math_min a b.
Definition Vec3_max (a b : vec3) : vec3 := vmap2 Math_max a b.

(** Modelled from the spec: Vec3.add, Vec3.sub, Vec3.scale, Vec3.dot,
    Vec3.cross and Vec3.inverse of vector.js (not in the sources), the
    usual componentwise 3-vector arithmetic. *)
Definition Vec3_add (a b : vec3) : vec3 := vmap2 nadd a b.
Definition Vec3_sub (a b : vec3) : vec3 := vmap2 nsub a b.
Definition Vec3_scale (a : vec3) (s : num) : vec3 :=
  V3 (nmul (vx a) s) (nmul (vy a) s) (nmul (vz a) s).
Definition Vec3_dot (a b : vec3) : num :=
  nadd (nadd (nmul (vx a) (vx b)) (nmul (vy a) (vy b))) (nmul (vz a) (vz b)).
Definition Vec3_cross (a b : vec3) : vec3 :=
  V3 (nsub (nmul (vy a) (vz b)) (nmul (vz a) (vy b)))
     (nsub (nmul (vz a) (vx b)) (nmul (vx a) (vz b)))
     (nsub (nmul (vx a) (vy b)) (nmul (vy a) (vx b))).
Definition Vec3_inverse (a : vec3) : vec3 :=
  V3 (ndiv (Fin 1) (vx a)) (ndiv (Fin 1) (vy a)) (ndiv (Fin 1) (vz a)).

(** ** BoundingBox (src/bvh.js) *)

Record BoundingBox : Type := BB { bmin : vec3; bmax : vec3 }.

(** [new BoundingBox()]: min at +Infinity, max at -Infinity. *)
Definition emptyBox : BoundingBox := BB (V3 PInf PInf PInf) (V3 NInf NInf NInf).

Definition addVertex (b : BoundingBox) (vert : vec3) : BoundingBox :=
  BB (Vec3_min vert (bmin b)) (Vec3_max vert (bmax b)).

Definition addTriangleVerts (b : BoundingBox) (verts : list vec3) : BoundingBox :=
  fold_left addVertex verts b.

Definition addBoundingBox (b box : BoundingBox) : BoundingBox :=
  BB (Vec3_min (bmin b) (bmin box)) (Vec3_max (bmax b) (bmax box)).

(** The centroid getter; its cache is invalidated on every mutation, so
    it always equals this value. *)
Definition centroid (b : BoundingBox) : vec3 :=
  Vec3_scale (Vec3_add (bmin b) (bmax b)) (Fin (1 # 2)).

Definition getSurfaceArea (b : BoundingBox) : num :=
  let xl := nsub (vx (bmax b)) (vx (bmin b)) in
  let yl := nsub (vy (bmax b)) (vy (bmin b)) in
  let zl := nsub (vz (bmax b)) (vz (bmin b)) in
  nmul (nadd (nadd (nmul xl yl) (nmul xl zl)) (nmul yl zl)) (Fin 2).

(** ** Triangle *)

(** A triangle; [verts] always has three entries. *)
Record Triangle : Type := MkTriangle { v0 : vec3; v1 : vec3; v2 : vec3 }.

Definition verts (t : Triangle) : list vec3 := [v0 t; v1 t; v2 t].

Definition triBox (t : Triangle) : BoundingBox := addTriangleVerts emptyBox (verts t).

(** [this.triangles[k].boundingBox]; the indices handled by the builder
    are always a permutation of 0..n-1, so the lookup never misses. *)
Definition tri_box (tris : list Triangle) (k : nat) : BoundingBox :=
  match tris !! k with Some t => triBox t | None => emptyBox end.

(** ** Node.setSplit *)

(** The split chosen so far: [bestCost], [this.splitIndex],
    [this.splitAxis] ([None] while the field is still undefined). *)
Record Split : Type := MkSplit {
  bestCost : num;
  splitIndex : option nat;
  splitAxis : option nat
}.

Definition initSplit : Split := MkSplit PInf None None.

(** [surfacesFront]: surface area of the running union of triangle boxes
    along [l]; [surfacesBack] is the same sweep along the reversed list. *)
Fixpoint prefix_areas (tris : list Triangle) (acc : BoundingBox) (l : list nat)
  : list num :=
  match l with
  | [] => []
  | k :: l' =>
      let acc' := addBoundingBox acc (tri_box tris k) in
      getSurfaceArea acc' :: prefix_areas tris acc' l'
  end.

Definition surfacesFront (tris : list Triangle) (idxCache : list nat) : list num :=
  prefix_areas tris emptyBox idxCache.

Definition surfacesBack (tris : list Triangle) (idxCache : list nat) : list num :=
  prefix_areas tris emptyBox (rev idxCache).

(** The cost the loop body computes at position [i]
    ([1 + (sAf / P) * 1 * (i + 1) + (sAb / P) * 1 * (N - 1 - i)]). *)
Definition loop_cost (sf sb : list num) (parentSA : num) (n i : nat) : num :=
  let sAf := nth i sf NaN in
  let sAb := nth (length sb - 1 - i) sb NaN in
  nadd (nadd (Fin 1) (nmul (nmul (ndiv sAf parentSA) (Fin 1)) (nnat (i + 1))))
       (nmul (nmul (ndiv sAb parentSA) (Fin 1)) (nnat (n - 1 - i))).

(** One iteration of the outer [for (axis ...)] loop. *)
Definition sweep_axis (tris : list Triangle) (parentSA : num) (axis : nat)
    (idxCache : list nat) (s : Split) : Split :=
  let n := length idxCache in
  let sf := surfacesFront tris idxCache in
  let sb := surfacesBack tris idxCache in
  fold_left
    (fun s i =>
       let cost := loop_cost sf sb parentSA n i in
       if nlt cost (bestCost s)
       then MkSplit cost (Some (i + 1)) (Some axis)
       else s)
    (seq 0 n) s.

Definition tri_verts (tris : list Triangle) (k : nat) : list vec3 :=
  match tris !! k with Some t => verts t | None => [] end.

(** [new BoundingBox().addNode(this)]: the vertices of the triangles of
    [indices[0]]. *)
Definition addNode (tris : list Triangle) (indices : list (list nat)) : BoundingBox :=
  fold_left (fun b k => addTriangleVerts b (tri_verts tris k))
    (nth 0 indices []) emptyBox.

Definition setSplit (tris : list Triangle) (indices : list (list nat))
    (box : BoundingBox) : Split :=
  let parentSA := getSurfaceArea box in
  fold_left (fun s axis => sweep_axis tris parentSA axis (nth axis indices []) s)
    [0; 1; 2] initSplit.

(** A [Node] as built by its constructor. *)
Record Node : Type := MkNode {
  n_indices : list (list nat);
  n_box : BoundingBox;
  n_split : Split
}.

Definition mkNode (tris : list Triangle) (indices : list (list nat)) : Node :=
  let box := addNode tris indices in
  MkNode indices box (setSplit tris indices box).

(** ** BVH construction *)

(** The comparator of [_sortIndices] answers 1 exactly when the first
    centroid is greater. *)
Definition centroid_gt (tris : list Triangle) (axis : nat) (i1 i2 : nat) : bool :=
  ngt (vget (centroid (tri_box tris i1)) axis) (vget (centroid (tri_box tris i2)) axis).

(** [Array.prototype.sort] is stable (ES2019): insertion sort that places
    an element after every element not greater than it. *)
Fixpoint insert_by (gt : nat -> nat -> bool) (x : nat) (l : list nat) : list nat :=
  match l with
  | [] => [x]
  | y :: l' => if gt y x then x :: l else y :: insert_by gt x l'
  end.

Definition sortIndices (tris : list Triangle) (indices : list nat) (axis : nat)
  : list nat :=
  fold_left (fun acc x => insert_by (centroid_gt tris axis) x acc) indices [].

(** [_constructCachedIndexList]. [None] stands for the TypeError thrown
    when [splitAxis] is undefined ([indices[undefined].slice]). The
    preallocated [Array(len)] of each other axis is filled up to [len]
    exactly, since every axis list holds the same index set. *)
Definition constructCachedIndexList (indices : list (list nat))
    (splitAxis splitIndex : option nat)
  : option (list (list nat) * list (list nat)) :=
  match splitAxis, splitIndex with
  | Some a, Some k =>
      let ia := nth a indices [] in
      let leftA := take k ia in
      let rightA := drop k ia in
      let setLeft : gset nat := list_to_set leftA in
      let leftI := map (fun b => if decide (b = a) then leftA
                                 else filter (fun idx => idx ∈ setLeft) (nth b indices []))
                       [0; 1; 2] in
      let rightI := map (fun b => if decide (b = a) then rightA
                                  else filter (fun idx => idx ∉ setLeft) (nth b indices []))
                       [0; 1; 2] in
      Some (leftI, rightI)
  | _, _ => None
  end.

(** The BVH tree. [Inner] keeps the construction-time index lists that
    [clearTempBuffers] drops afterwards; they are ghost data here. *)
Inductive tree : Type :=
| Leaf (node : Node)
| Inner (node : Node) (left right : tree).

Definition t_node (t : tree) : Node :=
  match t with Leaf n => n | Inner n _ _ => n end.

(** Outcome of a construction: a value, a thrown TypeError, or running
    out of the recursion bound. *)
Inductive result (A : Type) : Type :=
| Ok (a : A)
| TypeError
| OutOfFuel.
Arguments Ok {A} a.
Arguments TypeError {A}.
Arguments OutOfFuel {A}.

Definition rbind {A B} (m : result A) (f : A -> result B) : result B :=
  match m with
  | Ok a => f a
  | TypeError => TypeError
  | OutOfFuel => OutOfFuel
  end.

(** [buildTree]; [maxDepth] is [this.depth]. *)
Fixpoint buildTree (fuel : nat) (tris : list Triangle) (maxTriangles : nat)
    (indices : list (list nat)) (depth maxDepth : nat) : result (tree * nat) :=
  match fuel with
  | 0 => OutOfFuel
  | S fuel' =>
      let maxDepth := Nat.max depth maxDepth in
      let root := mkNode tris indices in
      let a := match splitAxis (n_split root) with Some a => a | None => 0 end in
      if length (nth a indices []) <=? maxTriangles then Ok (Leaf root, maxDepth)
      else
        match constructCachedIndexList indices (splitAxis (n_split root))
                (splitIndex (n_split root)) with
        | None => TypeError
        | Some (li, ri) =>
            rbind (buildTree fuel' tris maxTriangles li (S depth) maxDepth)
              (fun '(l, d1) =>
                 rbind (buildTree fuel' tris maxTriangles ri (S depth) d1)
                   (fun '(r, d2) => Ok (Inner root l r, d2)))
        end
  end.

(** [new BVH(triangles, maxTris)]. The recursion bound [n + 1] exceeds
    the depth of any build whose splits leave both sides non-empty. *)
Definition new_BVH (tris : list Triangle) (maxTris : nat) : result (tree * nat) :=
  let xIndices := seq 0 (length tris) in
  let ix := sortIndices tris xIndices 0 in
  let iy := sortIndices tris xIndices 1 in
  let iz := sortIndices tris xIndices 2 in
  buildTree (S (length tris)) tris maxTris [ix; iy; iz] 0 0.

Definition leafSize : nat := 4.

Definition qv (x y z : Q) : vec3 := V3 (Fin x) (Fin y) (Fin z).

(** ** The split selection as the spec words it

    For each axis 0..2 and each split count k in 1..N-1,
    [C(a,k) = 1 + SA(bbFront[k-1])/SA(parent) * k
              + SA(bbBack[N-1-k])/SA(parent) * (N-k)],
    keeping the first (axis, k) of minimum cost. *)
Definition spec_cost (sf sb : list num) (parentSA : num) (n k : nat) : num :=
  nadd (nadd (Fin 1) (nmul (ndiv (nth (k - 1) sf NaN) parentSA) (nnat k)))
       (nmul (ndiv (nth (n - 1 - k) sb NaN) parentSA) (nnat (n - k))).

Definition spec_sweep_axis (tris : list Triangle) (parentSA : num) (axis : nat)
    (idxCache : list nat) (s : Split) : Split :=
  let n := length idxCache in
  let sf := surfacesFront tris idxCache in
  let sb := surfacesBack tris idxCache in
  fold_left
    (fun s k =>
       let cost := spec_cost sf sb parentSA n k in
       if nlt cost (bestCost s) then MkSplit cost (Some k) (Some axis) else s)
    (seq 1 (n - 1)) s.

Definition spec_setSplit (tris : list Triangle) (indices : list (list nat))
    (box : BoundingBox) : Split :=
  let parentSA := getSurfaceArea box in
  fold_left (fun s axis => spec_sweep_axis tris parentSA axis (nth axis indices []) s)
    [0; 1; 2] initSplit.

(** ** Render loop (main.js: drawCamera, drawTracer, drawQuad, clear, tick) *)

Module RenderLoop.

(** The framebuffer bound to [gl.FRAMEBUFFER]: one of [framebuffers.screen],
    the camera framebuffer, or the default one ([null]; binding
    [undefined] binds it too). *)
Inductive Fb : Type :=
| FbScreen (i : nat)
| FbCamera
| FbDefault.

(** Passes issued to the GPU, in order. *)
Inductive Pass : Type :=
| PCamera
| PTracer (i : nat)
| PQuad (i : nat)
| PUpload.

(** Accumulator contents are abstracted to a sample count per target: the
    tracer shader (out of scope) adds one sample to what it reads, and
    [gl.clear] zeroes the bound target. *)
Record RState : Type := MkR {
  pingpong : nat;
  dirty : bool;
  moving : bool;
  active : bool;
  resScale : Q;
  bound : Fb;
  screens : list Z;
  canvas : Z;
  passes : list Pass
}.

(** [framebuffers.screen] holds two framebuffers; [screen[i]] for any
    other [i] is [undefined]. *)
Definition screen_fb (i : nat) : Fb := if decide (i < 2) then FbScreen i else FbDefault.

Definition bindFramebuffer (s : RState) (fb : Fb) : RState :=
  MkR (pingpong s) (dirty s) (moving s) (active s) (resScale s) fb (screens s) (canvas s) (passes s).

Definition glClear (s : RState) : RState :=
  match bound s with
  | FbScreen i =>
      MkR (pingpong s) (dirty s) (moving s) (active s) (resScale s) (bound s)
        (<[i := 0%Z]> (screens s)) (canvas s) (passes s)
  | FbDefault =>
      MkR (pingpong s) (dirty s) (moving s) (active s) (resScale s) (bound s)
        (screens s) 0%Z (passes s)
  | FbCamera => s
  end.

Definition set_counters (s : RState) (pp : nat) (d : bool) : RState :=
  MkR pp d (moving s) (active s) (resScale s) (bound s) (screens s) (canvas s) (passes s).

Definition log (s : RState) (p : Pass) : RState :=
  MkR (pingpong s) (dirty s) (moving s) (active s) (resScale s) (bound s)
    (screens s) (canvas s) (passes s ++ [p]).

Definition drawCamera (s : RState) : RState := log (bindFramebuffer s FbCamera) PCamera.

(** Reads [screen[(i + 1) % 2]], writes [screen[i % 2]]. *)
Definition drawTracer (s : RState) (i : nat) : RState :=
  let s := bindFramebuffer s (screen_fb (i mod 2)) in
  let prev := nth ((i + 1) mod 2) (screens s) 0%Z in
  log (MkR (pingpong s) (dirty s) (moving s) (active s) (resScale s) (bound s)
         (<[i mod 2 := (prev + 1)%Z]> (screens s)) (canvas s) (passes s))
      (PTracer i).

Definition drawQuad (s : RState) (i : nat) : RState :=
  let s := bindFramebuffer s FbDefault in
  log (MkR (pingpong s) (dirty s) (moving s) (active s) (resScale s) (bound s)
         (screens s) (nth (i mod 2) (screens s) 0%Z) (passes s))
      (PQuad i).

(** [clear()]. The second binding is [framebuffers.screen[pingpong + 1 % 2]]:
    [%] binds tighter than [+], so the index is [pingpong + 1]. *)
Definition clear (s : RState) : RState :=
  let s :=
    if moving s then s
    else
      let s := glClear (bindFramebuffer s (screen_fb 0)) in
      glClear (bindFramebuffer s (screen_fb (pingpong s + (1 mod 2)))) in
  set_counters s 0 false.

(** [parseInt(...)]: [None] is NaN. *)
Definition truthy_int (m : option Z) : bool :=
  match m with Some z => negb (Z.eqb z 0) | None => false end.

Definition le_max (p : nat) (m : option Z) : bool :=
  match m with Some z => Z.leb (Z.of_nat p) z | None => false end.

Definition ge_max (p : nat) (m : option Z) : bool :=
  match m with Some z => Z.leb z (Z.of_nat p) | None => false end.

(** [tick()]: the new state, and [true] when it uploads and returns
    instead of scheduling the next tick. *)
Definition tick (max : option Z) (frameNumber : Z) (s : RState) : RState * bool :=
  let s := MkR (pingpong s) (dirty s) (moving s) (active s)
              (if moving s then (1 # 4)%Q else 1%Q) (bound s) (screens s) (canvas s) (passes s) in
  let s :=
    if truthy_int max && le_max (pingpong s) max && active s then
      let s := drawTracer (drawCamera s) (pingpong s) in
      set_counters s (S (pingpong s)) (dirty s)
    else s in
  let s := drawQuad s (pingpong s) in
  let s := if dirty s then clear s else s in
  if ge_max (pingpong s) max && Z.leb 0 frameNumber then (log s PUpload, true)
  else (s, false).

(** Successive ticks with no input event in between; [true] once the
    upload has fired. *)
Fixpoint run (fuel : nat) (max : option Z) (frameNumber : Z) (s : RState) : RState * bool :=
  match fuel with
  | 0 => (s, false)
  | S f =>
      let '(s', stop) := tick max frameNumber s in
      if stop then (s', true) else run f max frameNumber s'
  end.

(** State at the first tick: [pingpong = 0], [dirty = true], zeroed
    accumulators. *)
Definition init (active : bool) : RState :=
  MkR 0 true false active 1%Q FbDefault [0%Z; 0%Z] 0%Z [].

(** An input event that invalidates the accumulator (mouse-up, key-up,
    slider input...): [dirty = true]. *)
Definition invalidate (s : RState) : RState := set_counters s (pingpong s) true.

(** The passes of one drawing tick at [pingpong = i]. *)
Definition tick_passes (i : nat) : list Pass := [PCamera; PTracer i; PQuad (S i)].

End RenderLoop.

(** ** BVH.serializeTree *)

(** A record [{node, left, right}]; [left]/[right] are [None] while
    undefined (always for leaves). *)
Record SRec : Type := MkSRec { s_node : tree; s_left : option Z; s_right : option Z }.

Definition is_leaf (t : tree) : bool := match t with Leaf _ => true | Inner _ _ _ => false end.

Definition set_left (o : Z) (e : SRec) : SRec := MkSRec (s_node e) (Some o) (s_right e).
Definition set_right (o : Z) (e : SRec) : SRec := MkSRec (s_node e) (s_left e) (Some o).

(** [traverseTree(root)] with the counter [i] and the array [nodes]. The
    object pushed for [root] is mutated after the recursive calls; it is
    updated in place at the position where it was pushed. Returns
    [parent], the final [i] and [nodes]. *)
Fixpoint traverseTree (root : tree) (i : Z) (nodes : list SRec) : Z * Z * list SRec :=
  let i := (i + 1)%Z in
  let parent := i in
  let pos := length nodes in
  let nodes := nodes ++ [MkSRec root None None] in
  match root with
  | Leaf _ => (parent, i, nodes)
  | Inner _ l r =>
      let '(lo, i, nodes) := traverseTree l i nodes in
      let nodes := alter (set_left lo) pos nodes in
      let '(ro, i, nodes) := traverseTree r i nodes in
      let nodes := alter (set_right ro) pos nodes in
      (parent, i, nodes)
  end.

Definition serializeTree (root : tree) : list SRec :=
  let '(_, _, nodes) := traverseTree root (-1)%Z [] in nodes.

Fixpoint tsize (t : tree) : nat :=
  match t with Leaf _ => 1 | Inner _ l r => S (tsize l + tsize r) end.

(** Depth-first preorder of the subtrees. *)
Fixpoint preorder (t : tree) : list tree :=
  match t with Leaf _ => [t] | Inner _ l r => t :: preorder l ++ preorder r end.

(** ** Packing of initBVH (lines 369-395) *)

(** A cell of [bvhBuffer]: a JS number or [undefined]. *)
Inductive jsval : Type :=
| JUndefined
| JNum (n : num).

(** [node.getTriangles()] of a leaf: [indices[0]] mapped to the triangles
    (every index is in range). *)
Definition getTriangles (tris : list Triangle) (n : Node) : list Triangle :=
  omap (fun k => tris !! k) (nth 0 (n_indices n) []).

Definition vec_cells (v : vec3) : list num := [vx v; vy v; vz v].

Definition tri_cells (t : Triangle) : list num :=
  vec_cells (v0 t) ++ vec_cells (v1 t) ++ vec_cells (v2 t).

Definition opt_cell (o : option Z) : jsval :=
  match o with Some z => JNum (Fin (inject_Z z)) | None => JUndefined end.

(** One iteration of the loop over [bvhArray]: appends the record's nine
    cells to [bvhBuffer] and a leaf's triangles to [trianglesBuffer]. The
    parallel material, normal and uv buffers are not modelled. *)
Definition pack_step (tris : list Triangle)
    (acc : list jsval * list num) (e : SRec) : list jsval * list num :=
  let '(bvhBuffer, trianglesBuffer) := acc in
  let node := t_node (s_node e) in
  let triIndex :=
    if is_leaf (s_node e)
    then ndiv (ndiv (nnat (length trianglesBuffer)) (Fin 3)) (Fin 3)
    else Fin (-1) in
  let bufferNode :=
    [opt_cell (s_left e); opt_cell (s_right e); JNum triIndex]
      ++ map JNum (vec_cells (bmin (n_box node)) ++ vec_cells (bmax (n_box node))) in
  let trianglesBuffer :=
    if is_leaf (s_node e)
    then trianglesBuffer ++ concat (map tri_cells (getTriangles tris node))
    else trianglesBuffer in
  (bvhBuffer ++ bufferNode, trianglesBuffer).

Definition pack (tris : list Triangle) (bvhArray : list SRec) : list jsval * list num :=
  fold_left (pack_step tris) bvhArray ([], []).

(** ** maskBVHBuffer *)

(** A cell of the [Float32Array]: the bits of a 32-bit integer, or a
    float. *)
Inductive cell : Type :=
| Bits (z : Z)
| F32 (n : jsval).

(** ECMAScript ToInt32: undefined, NaN and the infinities give 0;
    otherwise truncation toward zero, wrapped to the signed 32-bit range. *)
Definition ToInt32 (v : jsval) : Z :=
  match v with
  | JNum (Fin q) =>
      let t := Z.quot (Qnum q) (Zpos (Qden q)) in
      let m := Z.modulo t (2 ^ 32) in
      if Z.leb (2 ^ 31) m then (m - 2 ^ 32)%Z else m
  | _ => 0%Z
  end.

Definition maskBVHBuffer (bvhBuffer : list jsval) : list cell :=
  let masked := map (fun v => Bits (ToInt32 v)) bvhBuffer in
  fold_left
    (fun m i => fold_left (fun m j => <[i + j := F32 (nth (i + j) bvhBuffer JUndefined)]> m)
                  (seq 3 6) m)
    (map (fun q => 9 * q) (seq 0 ((length bvhBuffer + 8) / 9)))
    masked.

(** ** shootAutoFocusRay *)

Definition maxT : num := Fin 1000000.
Definition epsilon : num := Fin (1 # 1000000000000).

Definition nge (a b : num) : bool := nle b a.

Section AutoFocus.

Variable tris : list Triangle.
Variable eye dir : vec3.

Definition rayTriangleIntersect (tri : Triangle) : num :=
  let e1 := Vec3_sub (v1 tri) (v0 tri) in
  let e2 := Vec3_sub (v2 tri) (v0 tri) in
  let p := Vec3_cross dir e2 in
  let det := Vec3_dot e1 p in
  if ngt det (nneg epsilon) && nlt det epsilon then maxT
  else
    let invDet := ndiv (Fin 1) det in
    let t := Vec3_sub eye (v0 tri) in
    let u := nmul (Vec3_dot t p) invDet in
    if nlt u (Fin 0) || ngt u (Fin 1) then maxT
    else
      let q := Vec3_cross t e1 in
      let v := nmul (Vec3_dot dir q) invDet in
      if nlt v (Fin 0) || ngt (nadd u v) (Fin 1) then maxT
      else
        let t := nmul (Vec3_dot e2 q) invDet in
        if ngt t epsilon then t else maxT.

Definition processLeaf (root : Node) : num :=
  fold_left (fun res tri => let tmp := rayTriangleIntersect tri in
                            if nlt tmp res then tmp else res)
    (getTriangles tris root) maxT.

Definition rayBoxIntersect (bbox : BoundingBox) : num :=
  let invDir := Vec3_inverse dir in
  let tx1 := nmul (nsub (vx (bmin bbox)) (vx eye)) (vx invDir) in
  let tx2 := nmul (nsub (vx (bmax bbox)) (vx eye)) (vx invDir) in
  let ty1 := nmul (nsub (vy (bmin bbox)) (vy eye)) (vy invDir) in
  let ty2 := nmul (nsub (vy (bmax bbox)) (vy eye)) (vy invDir) in
  let tz1 := nmul (nsub (vz (bmin bbox)) (vz eye)) (vz invDir) in
  let tz2 := nmul (nsub (vz (bmax bbox)) (vz eye)) (vz invDir) in
  let tmin := Math_min tx1 tx2 in
  let tmax := Math_max tx1 tx2 in
  let tmin := Math_max tmin (Math_min ty1 ty2) in
  let tmax := Math_min tmax (Math_max ty1 ty2) in
  let tmin := Math_max tmin (Math_min tz1 tz2) in
  let tmax := Math_min tmax (Math_max tz1 tz2) in
  if nge tmax tmin && nge tmax (Fin 0) then tmin else maxT.

(** [closestNode(nLeft, nRight)]: the two entries in visiting order; the
    node is [Some true] for the left child, [Some false] for the right
    one, [None] for [null]. *)
Definition closestNode (nLeft nRight : Node) : list (option bool * num) :=
  let tLeft := rayBoxIntersect (n_box nLeft) in
  let tRight := rayBoxIntersect (n_box nRight) in
  let left := if nlt tLeft maxT then Some true else None in
  let right := if nlt tRight maxT then Some false else None in
  if nlt tLeft tRight then [(left, tLeft); (right, tRight)]
  else [(right, tRight); (left, tLeft)].

Fixpoint findTriangles (root : tree) (closest : num) : num :=
  match root with
  | Leaf n => processLeaf n
  | Inner _ l r =>
      fold_left
        (fun (closest : num) (e : option bool * num) =>
           let '(o, t) := e in
           match o with
           | Some side =>
               if nlt t closest then
                 let res := if side then findTriangles l closest
                            else findTriangles r closest in
                 Math_min res closest
               else closest
           | None => closest
           end)
        (closestNode (t_node l) (t_node r)) closest
  end.

End AutoFocus.

(** [x.toFixed(3)] for |x| < 1e21: the integer [n] nearest to [x * 1000]
    (the larger one on a tie, applied to |x|), printed with three
    decimals. *)
Inductive Display : Type :=
| DFixed (n : Z)
| DInfinity
| DNegInfinity
| DNaN.

Definition toFixed3 (x : num) : Display :=
  match x with
  | Fin q =>
      match qsign q with
      | Lt => DFixed (- Qfloor (- q * 1000 + (1 # 2)))
      | _ => DFixed (Qfloor (q * 1000 + (1 # 2)))
      end
  | PInf => DInfinity
  | NInf => DNegInfinity
  | NaN => DNaN
  end.

(** The state [shootAutoFocusRay] writes: [lensFeatures] and the value of
    the focal-depth input element. *)
Record FocusState : Type := MkFocus {
  lensFeatures : list num;
  focalDepthValue : Display
}.

Definition shootAutoFocusRay (tris : list Triangle) (eye dir : vec3) (root : tree)
    (s : FocusState) : FocusState :=
  let dist := findTriangles tris eye dir root maxT in
  MkFocus (<[0 := nsub (Fin 1) (ndiv (Fin 1) dist)]> (lensFeatures s)) (toFixed3 dist).

(** ** getMaterial: the scalar fields (main.js lines 266-268)

    The atlas indices come from the external texture packer and are not
    modelled. *)

Inductive JSValue : Type :=
| JSUndefined
| JSNull
| JSBool (b : bool)
| JSNum (n : num)
| JSStr (s : string)
| JSObject.

Definition truthy (v : JSValue) : bool :=
  match v with
  | JSUndefined | JSNull => false
  | JSBool b => b
  | JSNum (Fin q) => negb (Qeq_bool q 0)
  | JSNum NaN => false
  | JSNum _ => true
  | JSStr s => negb (String.eqb s "")
  | JSObject => true
  end.

(** [a || b]. *)
Definition js_or (a b : JSValue) : JSValue := if truthy a then a else b.

(** [obj[key]] on a plain object: [undefined] when absent. *)
Definition prop (o : gmap string JSValue) (key : string) : JSValue :=
  match o !! key with Some v => v | None => JSUndefined end.

Record MaterialScalars : Type := MkMaterialScalars {
  m_ior : JSValue;
  m_dielectric : JSValue;
  m_emittance : JSValue
}.

Definition getMaterial_scalars (transforms groupMaterial : gmap string JSValue)
  : MaterialScalars :=
  MkMaterialScalars
    (js_or (js_or (prop groupMaterial "ior") (prop transforms "ior")) (JSNum (Fin (14 # 10))))
    (js_or (js_or (prop groupMaterial "dielectric") (prop transforms "dielectric"))
       (JSNum (Fin (-1))))
    (prop transforms "emittance").

(** ** Vocabulary of the properties *)

Definition idx_of (t : tree) : list (list nat) := n_indices (t_node t).

(** Every internal node [Inner n l r] of a tree. *)
Fixpoint all_inner (P : Node -> tree -> tree -> Prop) (t : tree) : Prop :=
  match t with
  | Leaf _ => True
  | Inner n l r => P n l r /\ all_inner P l /\ all_inner P r
  end.

(** The triangle indices held by the leaves, left to right. *)
Fixpoint leaf_indices (t : tree) : list nat :=
  match t with
  | Leaf n => nth 0 (n_indices n) []
  | Inner _ l r => leaf_indices l ++ leaf_indices r
  end.

(** The partition made at an internal node: the split axis list is cut at
    [splitIndex]; on every axis the children's lists are disjoint and
    cover the parent's; on the two other axes each child keeps the
    parent's order (it is the parent's list filtered by membership in the
    left part). *)
Definition partition_ok (n : Node) (l r : tree) : Prop :=
  exists a k,
    splitAxis (n_split n) = Some a /\ splitIndex (n_split n) = Some k /\ a < 3 /\
    nth a (idx_of l) [] = take k (nth a (n_indices n) []) /\
    nth a (idx_of r) [] = drop k (nth a (n_indices n) []) /\
    forall b, b < 3 ->
      NoDup (nth b (idx_of l) [] ++ nth b (idx_of r) []) /\
      (forall x, x ∈ nth b (idx_of l) [] \/ x ∈ nth b (idx_of r) [] <->
                 x ∈ nth b (n_indices n) []) /\
      (b <> a ->
         nth b (idx_of l) [] =
           filter (fun x => x ∈ take k (nth a (n_indices n) [])) (nth b (n_indices n) []) /\
         nth b (idx_of r) [] =
           filter (fun x => x ∉ take k (nth a (n_indices n) [])) (nth b (n_indices n) [])).

(** The records [serializeTree] produces for [t] when [t] gets ordinal
    [p]: [t]'s own record, then its left and right subtrees. *)
Fixpoint serial (t : tree) (p : Z) : list SRec :=
  match t with
  | Leaf _ => [MkSRec t None None]
  | Inner _ l r =>
      MkSRec t (Some (p + 1)%Z) (Some (p + 1 + Z.of_nat (tsize l))%Z)
        :: serial l (p + 1)%Z ++ serial r (p + 1 + Z.of_nat (tsize l))%Z
  end.

(** The number of triangles the packer emits for a record. *)
Definition leaf_count (tris : list Triangle) (e : SRec) : nat :=
  if is_leaf (s_node e) then length (getTriangles tris (t_node (s_node e))) else 0.

(** The nine cells of a record whose leaf triangles start at [c]. *)
Definition bufferNode_at (e : SRec) (c : nat) : list jsval :=
  [opt_cell (s_left e); opt_cell (s_right e);
   JNum (if is_leaf (s_node e) then nnat c else Fin (-1))]
    ++ map JNum (vec_cells (bmin (n_box (t_node (s_node e))))
                 ++ vec_cells (bmax (n_box (t_node (s_node e))))).

Fixpoint emit (tris : list Triangle) (rs : list SRec) (c : nat) : list jsval :=
  match rs with
  | [] => []
  | e :: rs' => bufferNode_at e c ++ emit tris rs' (c + leaf_count tris e)
  end.

(** The triangles the packer appends, record by record. *)
Definition leaf_tris (tris : list Triangle) (rs : list SRec) : list Triangle :=
  concat (map (fun e => if is_leaf (s_node e) then getTriangles tris (t_node (s_node e)) else []) rs).

(** Three lists holding the same indices, without duplicates. *)
Definition idx_inv (idx : list (list nat)) : Prop :=
  length idx = 3 /\ NoDup (nth 0 idx []) /\
  forall b, b < 3 -> nth b idx [] ≡ₚ nth 0 idx [].

(** ** Sample inputs *)

(** A unit right triangle in the plane z = 0, counter-clockwise seen from
    +z, and the same triangle with the opposite winding. *)
Definition s1 : Triangle := MkTriangle (qv 0 0 0) (qv 1 0 0) (qv 0 1 0).
Definition s1r : Triangle := MkTriangle (qv 0 0 0) (qv 0 1 0) (qv 1 0 0).

(** A point above the interior of [s1]. *)
Definition eyeA : vec3 := qv (1 # 4) (1 # 4) 1.

(** Three triangles whose boxes overlap along y and z but not along x;
    [big x y z s] spans [s] from [(x, y, z)]. *)
Definition big (x y z s : Q) : Triangle :=
  MkTriangle (qv x y z) (qv (x + s) (y + s) z) (qv x (y + s) (z + s)).

Definition tris3 : list Triangle := [big 9 0 0 1; big 4 0 0 1; big 7 0 0 2].

(** A triangle collapsed to the origin: its box has surface area 0. *)
Definition pt : Triangle := MkTriangle (qv 0 0 0) (qv 0 0 0) (qv 0 0 0).

(** ** Finite vectors *)

(** A vector with three finite coordinates. *)
Definition finite3 (v : vec3) : Prop := exists x y z, v = qv x y z.

(** The leaves of a tree, left to right. *)
Fixpoint leaf_nodes (t : tree) : list Node :=
  match t with
  | Leaf n => [n]
  | Inner _ l r => leaf_nodes l ++ leaf_nodes r
  end.

(** No triangle of any leaf is hit closer than [maxT]. *)
Definition no_hit (tris : list Triangle) (eye dir : vec3) (t : tree) : bool :=
  forallb (fun n => forallb (fun tri => negb (nlt (rayTriangleIntersect eye dir tri) maxT))
                      (getTriangles tris n))
    (leaf_nodes t).

(** ** BVH trees: vertices, boxes and shape predicates *)

Definition all_verts (tris : list Triangle) : Prop :=
  Forall (fun t => Forall finite3 (verts t)) tris.

Definition node_verts (tris : list Triangle) (idx : list (list nat)) : list vec3 :=
  concat (map (tri_verts tris) (nth 0 idx [])).

Definition in_box (b : BoundingBox) (v : vec3) : Prop :=
  forall a, a < 3 ->
    nle (vget (bmin b) a) (vget v a) = true /\ nle (vget v a) (vget (bmax b) a) = true.

Definition box_le (inner outer : BoundingBox) : Prop :=
  forall a, a < 3 ->
    nle (vget (bmin outer) a) (vget (bmin inner) a) = true /\
    nle (vget (bmax inner) a) (vget (bmax outer) a) = true.

Fixpoint all_nodes (P : Node -> Prop) (t : tree) : Prop :=
  match t with
  | Leaf n => P n
  | Inner n l r => P n /\ all_nodes P l /\ all_nodes P r
  end.

Fixpoint all_leaves (P : Node -> Prop) (t : tree) : Prop :=
  match t with
  | Leaf n => P n
  | Inner _ l r => all_leaves P l /\ all_leaves P r
  end.

Fixpoint height (t : tree) : nat :=
  match t with
  | Leaf _ => 0
  | Inner _ l r => S (Nat.max (height l) (height r))
  end.

(** ** Sort keys *)

Definition ckey (tris : list Triangle) (axis : nat) (i : nat) : num :=
  vget (centroid (tri_box tris i)) axis.

(** The key of [i] is equivalent to [k]. *)
Definition same_key (a k : num) : bool := nle a k && nle k a.

(** ** [padBuffer] and the light loop of [initBVH] *)

(** [Math.ceil]. *)
Definition nceil (a : num) : num :=
  match a with Fin q => Fin (inject_Z (Qceiling q)) | _ => a end.

(** The least integer [s >= 0] with [s * s >= n], for an integer [n]. *)
Definition ceil_sqrt (n : Z) : Z := if Z.leb n 0 then 0%Z else (Z.sqrt (n - 1) + 1)%Z.

(** [Math.ceil(Math.sqrt(x) / pe)] for a finite [x >= 0] and an integer
    [pe > 0], with [Math.sqrt] exact: the least [k >= 0] with
    [(k * pe)^2 >= x] (lemma [ceil_sqrt_div_spec]). *)
Definition ceil_sqrt_div (x : Q) (pe : Z) : Z := ((ceil_sqrt (Qceiling x) + pe - 1) / pe)%Z.

(** The number of iterations of [for (let i = 0; i < n; i++)]; [None]
    when it does not terminate. *)
Definition loop_count (n : num) : option nat :=
  match n with
  | Fin q => Some (Z.to_nat (Qceiling q))
  | PInf => None
  | _ => Some 0
  end.

(** [padBuffer(buffer, perElement, channels)]: the padded buffer and
    [[width, height]]. [perElement] and [channels] are positive integer
    literals at every call, so [num_pixels] is finite. *)
Definition padBuffer {A} (minus1 : A) (buffer : list A) (perElement channels : positive)
    : option (list A * (num * num)) :=
  let num_pixels := ndiv (nnat (length buffer)) (Fin (inject_Z (Zpos channels))) in
  let width :=
    match num_pixels with
    | Fin q => nmul (Fin (inject_Z (ceil_sqrt_div q (Zpos perElement))))
                    (Fin (inject_Z (Zpos perElement)))
    | _ => NaN
    end in
  let height := nceil (ndiv num_pixels width) in
  let numToPad :=
    nsub (nmul (nmul (Fin (inject_Z (Zpos channels))) width) height) (nnat (length buffer)) in
  match loop_count numToPad with
  | Some n => Some (buffer ++ repeat minus1 n, (width, height))
  | None => None
  end.

(** [lightRanges] and [lightBuffer] after the loop over [lights] (lines
    397-405); [lightRanges] starts empty. *)
Definition lightLoop (lights : list (list Triangle)) : list num * list num :=
  fold_left
    (fun '(lightRanges, lightBuffer) group =>
       let lightRanges := lightRanges ++ [ndiv (nnat (length lightBuffer)) (Fin 9)] in
       let lightBuffer := lightBuffer ++ concat (map tri_cells group) in
       (lightRanges ++ [nsub (ndiv (nnat (length lightBuffer)) (Fin 9)) (Fin 1)], lightBuffer))
    lights ([], []).

(** ** [commitPreprocessor] *)

Definition nl : Ascii.ascii := Ascii.ascii_of_nat 10.

(** [s.split('\n')]: the pieces between newlines; always at least one. *)
Fixpoint split_nl (s : string) : list string :=
  match s with
  | EmptyString => [EmptyString]
  | String c s' =>
      let rest := split_nl s' in
      if Ascii.eqb c nl then EmptyString :: rest
      else match rest with
           | [] => [String c EmptyString]
           | w :: ws => String c w :: ws
           end
  end.

(** [lines.join('\n')]. *)
Fixpoint join_nl (l : list string) : string :=
  match l with
  | [] => EmptyString
  | [w] => w
  | w :: ws => String.append w (String nl (join_nl ws))
  end.

(** [a.splice(1, 0, ...items)]: the start index is clamped to the length. *)
Definition splice1 (a items : list string) : list string := take 1 a ++ items ++ drop 1 a.

Definition commitPreprocessor (shader : string) (preprocDirs : list string) : string :=
  join_nl (splice1 (split_nl shader) preprocDirs).

Fixpoint has_nl (s : string) : bool :=
  match s with
  | EmptyString => false
  | String c s' => Ascii.eqb c nl || has_nl s'
  end.

(** ** [createEnvironmentMapPixels] *)

(** [Math.floor]. *)
Definition nfloor (a : num) : num :=
  match a with Fin q => Fin (inject_Z (Qfloor q)) | x => x end.

(** JS [%]: the remainder of the division truncated toward zero. *)
Definition qtrunc (q : Q) : Z := if Qle_bool 0 q then Qfloor q else (- Qfloor (- q))%Z.

Definition nmod (a b : num) : num :=
  match a, b with
  | Fin x, Fin y => if Qeq_bool y 0 then NaN else Fin (Qred (x - y * inject_Z (qtrunc (x / y))))
  | Fin x, (PInf | NInf) => Fin x
  | _, _ => NaN
  end.

(** [arr[x]] for a number [x]: an element only at a non-negative integer index. *)
Definition js_index {A} (l : list A) (x : num) : option A :=
  match x with
  | Fin q => if (Z.eqb (Zpos (Qden q)) 1 && Z.leb 0 (Qnum q))%bool then l !! Z.to_nat (Qnum q) else None
  | _ => None
  end.

(** Row [i] of [createEnvironmentMapPixels]: the two stops handed to
    [Vec3.lerp] (None for [undefined]) and the blend factor [sigma]. *)
Definition env_row {A} (stops : list A) (i : nat) : option A * option A * num :=
  let height := Fin 2048 in
  let stopIdx := nfloor (ndiv (nnat i) (ndiv height (nsub (nnat (length stops)) (Fin 1)))) in
  let rangePixels := ndiv height (nsub (nnat (length stops)) (Fin 1)) in
  let sigma := ndiv (nmod (nnat i) rangePixels) rangePixels in
  (js_index stops stopIdx, js_index stops (nadd stopIdx (Fin 1)), sigma).

(** ** Hits of [findTriangles] *)

Definition tri_hit (tris : list Triangle) (eye dir : vec3) (root : tree) (v : num) : Prop :=
  v = maxT \/
  exists n tri, n ∈ leaf_nodes root /\ tri ∈ getTriangles tris n /\ v = rayTriangleIntersect eye dir tri.

(** ** Accumulator state of the render loop *)
Module RenderLoopAcc.
Import RenderLoop.

(** The two accumulators after [n >= 1] samples: [screen[(n+1) % 2]] was
    written last and holds [n], the other holds [n - 1]. *)
Definition acc_screens (n : nat) : list Z :=
  if Nat.even n then [(Z.of_nat n - 1)%Z; Z.of_nat n] else [Z.of_nat n; (Z.of_nat n - 1)%Z].

Definition acc_state (n : nat) (ps : list Pass) : RState :=
  MkR n false false true 1 FbDefault (acc_screens n) (Z.of_nat n - 1)%Z ps.

End RenderLoopAcc.

(** ** Input events ([initEvents]) *)
Module Events.

(** The state the handlers of [initEvents] update: [mode] (local),
    [moving], [dirty], [activeEvents] (a [Set] of strings, local) and
    [fovScale]. The camera updates ([eye], [dir], through vector.js) and
    the DOM writes are not modelled. *)
Record EvState : Type := MkEv {
  mode : bool;
  moving : bool;
  dirty : bool;
  activeEvents : gset string;
  fovScale : num
}.

Inductive Event : Type :=
| MouseDown (which : Z)
| MouseMove
| MouseUp (which : Z)
| MouseWheel (wheelDelta : Q)
| ThetaInput
| FocalDepthInput
| ApertureSizeInput
| OtherInput (* exposure, saturation, denoise, sigma: no flag changes *)
| KeyPress (key : string)
| KeyUp (key : string).

Definition keySet : gset string := {["w"; "a"; "s"; "d"; "r"; "f"]}.

Definition set_moving (s : EvState) (b : bool) : EvState :=
  MkEv (mode s) b (dirty s) (activeEvents s) (fovScale s).

Definition set_dirty (s : EvState) : EvState :=
  MkEv (mode s) (moving s) true (activeEvents s) (fovScale s).

Definition set_active (s : EvState) (a : gset string) : EvState :=
  MkEv (mode s) (moving s) (dirty s) a (fovScale s).

Definition set_mode (s : EvState) (b : bool) : EvState :=
  MkEv b (moving s) (dirty s) (activeEvents s) (fovScale s).

Definition step (s : EvState) (e : Event) : EvState :=
  match e with
  | MouseDown w => set_mode s (Z.eqb w 1)
  | MouseMove =>
      if mode s then set_active (set_dirty (set_moving s true)) ({["mouse"]} ∪ activeEvents s)
      else s
  | MouseUp w =>
      let s := set_active (set_mode s false) (activeEvents s ∖ {["mouse"]}) in
      let s := if decide (size (activeEvents s) = 0) then set_moving s false else s in
      if Z.eqb w 1 then set_dirty s else s
  | MouseWheel d =>
      set_dirty (MkEv (mode s) (moving s) (dirty s) (activeEvents s)
                   (nsub (fovScale s) (nmul (ndiv (Fin d) (Fin 1200)) (fovScale s))))
  | ThetaInput | FocalDepthInput | ApertureSizeInput => set_dirty s
  | OtherInput => s
  | KeyPress k =>
      if decide (k ∈ keySet)
      then set_dirty (set_moving (set_active s ({[k]} ∪ activeEvents s)) true)
      else s
  | KeyUp k =>
      if decide (k ∈ keySet) then
        let s := set_active s (activeEvents s ∖ {[k]}) in
        let s := if decide (size (activeEvents s) = 0) then set_moving s false else s in
        set_dirty s
      else s
  end.

Definition run_events (s : EvState) (es : list Event) : EvState := fold_left step es s.

Definition ev_inv (s : EvState) : Prop :=
  (moving s = true <-> activeEvents s ≠ ∅) /\ activeEvents s ⊆ {["mouse"]} ∪ keySet.

End Events.

(** * Properties *)

(** ** Index lists *)

Lemma fold_left_inv {A B} (P : A -> Prop) (f : A -> B -> A) (l : list B) (s : A) :
  P s -> (forall s x, In x l -> P s -> P (f s x)) -> P (fold_left f l s).
Proof.
  revert s. induction l as [|x l IH]; intros s Hs Hf; simpl; [done|].
  apply IH; [apply Hf; [left|]; done|]. intros s' y Hy. apply Hf. by right.
Qed.

Lemma insert_by_perm gt x l : insert_by gt x l ≡ₚ x :: l.
Proof.
  induction l as [|y l IH]; simpl; [done|].
  destruct (gt y x); [done|]. rewrite IH. apply Permutation_swap.
Qed.

Lemma sortIndices_perm tris xs axis : sortIndices tris xs axis ≡ₚ xs.
Proof.
  unfold sortIndices.
  assert (forall acc, fold_left (fun acc x => insert_by (centroid_gt tris axis) x acc) xs acc
                      ≡ₚ xs ++ acc) as H.
  { induction xs as [|x xs IH]; intros acc; simpl; [done|].
    rewrite IH, insert_by_perm. symmetry. apply Permutation_middle. }
  rewrite H. by rewrite app_nil_r.
Qed.

Lemma filter_all_in {A} (P : A -> Prop) `{forall x, Decision (P x)} (l : list A) :
  (forall x, x ∈ l -> P x) -> filter P l = l.
Proof.
  induction l as [|x l IH]; intros Hl; [done|].
  rewrite filter_cons_True; [|apply Hl; left].
  f_equal. apply IH. intros y Hy. apply Hl. by right.
Qed.

Lemma filter_none_in {A} (P : A -> Prop) `{forall x, Decision (P x)} (l : list A) :
  (forall x, x ∈ l -> ~ P x) -> filter P l = [].
Proof.
  induction l as [|x l IH]; intros Hl; [done|].
  rewrite filter_cons_False; [|apply Hl; left].
  apply IH. intros y Hy. apply Hl. by right.
Qed.

Lemma sweep_axis_range tris parentSA axis idxCache s :
  axis < 3 ->
  (forall a, splitAxis s = Some a -> a < 3) ->
  forall a, splitAxis (sweep_axis tris parentSA axis idxCache s) = Some a -> a < 3.
Proof.
  intros Hax Hs. unfold sweep_axis.
  apply (fold_left_inv (fun s => forall a, splitAxis s = Some a -> a < 3)); [done|].
  intros s' i _ Hs'. destruct (nlt _ _); [|done]. simpl. intros a [= <-]. done.
Qed.

Lemma setSplit_axis_range tris idx box a :
  splitAxis (setSplit tris idx box) = Some a -> a < 3.
Proof.
  unfold setSplit. revert a.
  apply (fold_left_inv (fun s => forall a, splitAxis s = Some a -> a < 3)); [done|].
  intros s axis Hin Hs. apply sweep_axis_range; [|done].
  repeat destruct Hin as [<-|Hin]; try lia. inversion Hin.
Qed.

(** Filtering a duplicate-free list by membership in its own prefix gives
    the prefix back; by non-membership, the rest. *)
Lemma filter_prefix (P : list nat) k :
  NoDup P ->
  filter (fun x => x ∈ take k P) P = take k P /\
  filter (fun x => x ∉ take k P) P = drop k P.
Proof.
  intros HND.
  pose proof HND as HND'. rewrite <- (take_drop k P) in HND'.
  apply NoDup_app in HND' as (_ & Hdisj & _).
  rewrite <- (take_drop k P) at 1 3. rewrite !filter_app. split.
  - rewrite (filter_all_in _ (take k P)) by done.
    rewrite (filter_none_in _ (drop k P)); [by rewrite app_nil_r|].
    intros x Hx Hin. by apply (Hdisj x).
  - rewrite (filter_none_in _ (take k P)) by (intros x Hx Hn; by apply Hn).
    rewrite (filter_all_in _ (drop k P)); [done|].
    intros x Hx Hin. by apply (Hdisj x).
Qed.

Lemma nth_map3 (f : nat -> list nat) b :
  b < 3 -> nth b (map f [0; 1; 2]) [] = f b.
Proof. intros Hb. destruct b as [|[|[|b]]]; simpl; try done; lia. Qed.

(** The six lists built by [_constructCachedIndexList]. *)
Lemma constructCachedIndexList_spec idx a k li ri :
  idx_inv idx -> a < 3 ->
  constructCachedIndexList idx (Some a) (Some k) = Some (li, ri) ->
  let P := nth a idx [] in
  idx_inv li /\ idx_inv ri /\
  nth 0 li [] ++ nth 0 ri [] ≡ₚ nth 0 idx [] /\
  forall b, b < 3 ->
    nth b li [] ≡ₚ take k P /\ nth b ri [] ≡ₚ drop k P /\
    (b = a -> nth b li [] = take k P /\ nth b ri [] = drop k P) /\
    (b <> a ->
       nth b li [] = filter (fun x => x ∈ take k P) (nth b idx []) /\
       nth b ri [] = filter (fun x => x ∉ take k P) (nth b idx [])).
Proof.
  intros (Hlen & HND0 & Hperm) Ha Hc.
  cbv beta iota zeta delta [constructCachedIndexList] in Hc. injection Hc as <- <-.
  cbv zeta. set (P := nth a idx []).
  assert (HNDP : NoDup P).
  { unfold P. by rewrite (Hperm a Ha). }
  destruct (filter_prefix P k HNDP) as [HfL HfR].
  set (S := list_to_set (take k P) : gset nat).
  assert (HS : forall x, x ∈ S <-> x ∈ take k P).
  { intros x. unfold S. apply elem_of_list_to_set. }
  assert (Hb : forall b, b < 3 ->
    nth b (map (fun b => if decide (b = a) then take k P
                          else filter (fun idx => idx ∈ S) (nth b idx [])) [0; 1; 2]) []
      = (if decide (b = a) then take k P
         else filter (fun x => x ∈ take k P) (nth b idx [])) /\
    nth b (map (fun b => if decide (b = a) then drop k P
                          else filter (fun idx => idx ∉ S) (nth b idx [])) [0; 1; 2]) []
      = (if decide (b = a) then drop k P
         else filter (fun x => x ∉ take k P) (nth b idx []))).
  { intros b Hb3. rewrite !nth_map3 by done. split.
    - destruct (decide (b = a)); [done|]. apply list_filter_iff. apply HS.
    - destruct (decide (b = a)); [done|]. apply list_filter_iff.
      intros x. by rewrite HS. }
  assert (Hp : forall b, b < 3 -> nth b idx [] ≡ₚ P).
  { intros b Hb3. unfold P. by rewrite (Hperm b Hb3), (Hperm a Ha). }
  assert (Hparts : forall b, b < 3 ->
    nth b (map (fun b => if decide (b = a) then take k P
                          else filter (fun idx => idx ∈ S) (nth b idx [])) [0; 1; 2]) []
      ≡ₚ take k P /\
    nth b (map (fun b => if decide (b = a) then drop k P
                          else filter (fun idx => idx ∉ S) (nth b idx [])) [0; 1; 2]) []
      ≡ₚ drop k P).
  { intros b Hb3. destruct (Hb b Hb3) as [-> ->].
    destruct (decide (b = a)); [done|].
    rewrite (Hp b Hb3). by rewrite HfL, HfR. }
  pose proof HNDP as HND2. rewrite <- (take_drop k P) in HND2.
  apply NoDup_app in HND2 as (HNDL & _ & HNDR).
  split; [|split; [|split]].
  - split; [done|]. split.
    + destruct (Hparts 0 ltac:(lia)) as [-> _]. done.
    + intros b Hb3. destruct (Hparts b Hb3) as [-> _].
      by destruct (Hparts 0 ltac:(lia)) as [-> _].
  - split; [done|]. split.
    + destruct (Hparts 0 ltac:(lia)) as [_ ->]. done.
    + intros b Hb3. destruct (Hparts b Hb3) as [_ ->].
      by destruct (Hparts 0 ltac:(lia)) as [_ ->].
  - destruct (Hparts 0 ltac:(lia)) as [-> ->].
    rewrite take_drop. symmetry. apply (Hp 0). lia.
  - intros b Hb3. destruct (Hparts b Hb3) as [HL HR].
    split; [done|]. split; [done|].
    destruct (Hb b Hb3) as [EL ER]. cbn [map] in EL, ER |- *. rewrite EL, ER. split.
    + intros ->. destruct (decide (a = a)) as [_|Hn]; [by split|by destruct Hn].
    + intros Hne. destruct (decide (b = a)); [congruence|by split].
Qed.

(** Every tree [buildTree] returns from well-formed index lists keeps
    them at its root, partitions them at every internal node, and spreads
    them over its leaves. *)
Lemma buildTree_inv tris m fuel idx depth md t d :
  idx_inv idx ->
  buildTree fuel tris m idx depth md = Ok (t, d) ->
  idx_of t = idx /\ all_inner partition_ok t /\ leaf_indices t ≡ₚ nth 0 idx [].
Proof.
  revert idx depth md t d.
  induction fuel as [|fuel IH]; intros idx depth md t d Hinv H; [discriminate|].
  cbn [buildTree] in H.
  destruct (length _ <=? m); [injection H as <- <-; by split|].
  destruct (constructCachedIndexList idx (splitAxis (n_split (mkNode tris idx)))
              (splitIndex (n_split (mkNode tris idx)))) as [[li ri]|] eqn:Hc;
    [|discriminate].
  destruct (buildTree fuel tris m li (S depth) (Nat.max depth md)) as [[l d1]| |] eqn:El;
    simpl in H; try discriminate.
  destruct (buildTree fuel tris m ri (S depth) d1) as [[r d2]| |] eqn:Er;
    simpl in H; try discriminate.
  injection H as <- <-.
  destruct (splitAxis (n_split (mkNode tris idx))) as [a|] eqn:Ea; [|discriminate].
  destruct (splitIndex (n_split (mkNode tris idx))) as [k|] eqn:Ek; [|discriminate].
  assert (Ha : a < 3) by (eapply setSplit_axis_range; exact Ea).
  destruct (constructCachedIndexList_spec idx a k li ri Hinv Ha Hc)
    as (Hli & Hri & Hcover & Hparts).
  destruct (IH li (S depth) (Nat.max depth md) l d1 Hli El) as (Il & Al & Ll).
  destruct (IH ri (S depth) d1 r d2 Hri Er) as (Ir & Ar & Lr).
  split; [done|]. split; [|simpl; by rewrite Ll, Lr].
  split; [|by split].
  exists a, k. simpl. rewrite Il, Ir.
  split; [done|]. split; [done|]. split; [done|].
  destruct (Hparts a Ha) as (_ & _ & Heq & _). destruct (Heq eq_refl) as [-> ->].
  split; [done|]. split; [done|].
  intros b Hb. destruct (Hparts b Hb) as (HL & HR & _ & Hne).
  assert (HP : nth b idx [] ≡ₚ nth a idx []).
  { destruct Hinv as (_ & _ & Hp). by rewrite (Hp b Hb), (Hp a Ha). }
  assert (HNDa : NoDup (nth a idx [])).
  { destruct Hinv as (_ & HND & Hp). by rewrite (Hp a Ha). }
  split; [|split].
  - rewrite HL, HR, take_drop. done.
  - intros x. rewrite <- elem_of_app, HL, HR, take_drop, HP. done.
  - exact Hne.
Qed.

Lemma new_BVH_idx_inv tris :
  idx_inv [sortIndices tris (seq 0 (length tris)) 0;
           sortIndices tris (seq 0 (length tris)) 1;
           sortIndices tris (seq 0 (length tris)) 2].
Proof.
  split; [done|]. split.
  - simpl. rewrite sortIndices_perm. apply NoDup_seq.
  - intros b Hb. simpl. rewrite sortIndices_perm.
    destruct b as [|[|[|b]]]; simpl; rewrite ?sortIndices_perm; try done; lia.
Qed.

(** C6: at every internal node of a BVH built by the builder, the two
    children's index lists (on each axis) are disjoint and together hold
    the parent's indices; on the two non-split axes each child keeps the
    parent's sorted order. Over the whole tree, every source triangle
    appears in exactly one leaf. *)
Theorem buildTree_partition (tris : list Triangle) (maxTris : nat) (t : tree) (d : nat) :
  new_BVH tris maxTris = Ok (t, d) ->
  all_inner partition_ok t /\ leaf_indices t ≡ₚ seq 0 (length tris).
Proof.
  unfold new_BVH. intros H.
  destruct (buildTree_inv _ _ _ _ _ _ _ _ (new_BVH_idx_inv tris) H) as (_ & Hall & Hl).
  split; [done|]. rewrite Hl. simpl. apply sortIndices_perm.
Qed.

(** ** Serialization *)

Lemma length_preorder t : length (preorder t) = tsize t.
Proof. induction t; simpl; rewrite ?length_app; lia. Qed.

Lemma length_serial t p : length (serial t p) = tsize t.
Proof.
  revert p. induction t as [|n l IHl r IHr]; intros p; simpl; [done|].
  rewrite length_app, IHl, IHr. done.
Qed.

Lemma traverseTree_serial t i nodes :
  traverseTree t i nodes = ((i + 1)%Z, (i + Z.of_nat (tsize t))%Z, nodes ++ serial t (i + 1)%Z).
Proof.
  revert i nodes. induction t as [n|n l IHl r IHr]; intros i nodes; simpl.
  - repeat f_equal; try lia.
  - rewrite IHl. cbv iota beta zeta.
    rewrite <- app_assoc, (alter_app_r_alt _ nodes) by lia.
    rewrite Nat.sub_diag. simpl.
    rewrite IHr. cbv iota beta zeta.
    rewrite <- app_assoc, (alter_app_r_alt _ nodes) by lia.
    rewrite Nat.sub_diag. simpl.
    unfold set_left, set_right. simpl.
    assert (E1 : (i + 1 + Z.of_nat (tsize l) + 1 = i + 1 + 1 + Z.of_nat (tsize l))%Z) by lia.
    rewrite E1. f_equal. f_equal. lia.
Qed.

Lemma serializeTree_serial t : serializeTree t = serial t 0.
Proof. unfold serializeTree. by rewrite traverseTree_serial. Qed.

Lemma serial_nodes t p : map s_node (serial t p) = preorder t.
Proof.
  revert p. induction t as [n|n l IHl r IHr]; intros p; simpl; [done|].
  by rewrite map_app, IHl, IHr.
Qed.

(** The child ordinals stored in the record at position [q]. *)
Lemma serial_lookup t p q e :
  serial t p !! q = Some e ->
  match s_node e with
  | Inner _ l _ => s_left e = Some (p + Z.of_nat q + 1)%Z /\
                   s_right e = Some (p + Z.of_nat q + 1 + Z.of_nat (tsize l))%Z
  | Leaf _ => s_left e = None /\ s_right e = None
  end.
Proof.
  revert p q e. induction t as [n|n l IHl r IHr]; intros p q e H; simpl in H.
  - destruct q; simpl in H; [|by rewrite lookup_nil in H]. by injection H as <-.
  - destruct q as [|q]; simpl in H.
    + injection H as <-. simpl. split; f_equal; lia.
    + apply lookup_app_Some in H as [H|[Hlen H]].
      * specialize (IHl _ _ _ H). destruct (s_node e) as [|n' l' r'];
          [done|]. destruct IHl as [-> ->]. split; f_equal; lia.
      * rewrite length_serial in Hlen, H. specialize (IHr _ _ _ H).
        destruct (s_node e) as [|n' l' r']; [done|].
        destruct IHr as [-> ->]. split; f_equal; lia.
Qed.

(** Each subtree occupies a contiguous block of the preorder, starting
    at its own position. *)
Lemma preorder_block t q s :
  preorder t !! q = Some s -> exists rest, drop q (preorder t) = preorder s ++ rest.
Proof.
  revert q s. induction t as [n|n l IHl r IHr]; intros q s H; simpl in H.
  - destruct q; simpl in H; [|by rewrite lookup_nil in H].
    injection H as <-. exists []. by rewrite app_nil_r.
  - destruct q as [|q]; simpl in H.
    + injection H as <-. exists []. by rewrite app_nil_r.
    + simpl. apply lookup_app_Some in H as [H|[Hlen H]].
      * destruct (IHl _ _ H) as [rest Hr].
        exists (rest ++ preorder r).
        rewrite drop_app_le by (apply lookup_lt_Some in H; lia).
        rewrite Hr. by rewrite app_assoc.
      * destruct (IHr _ _ H) as [rest Hr]. exists rest.
        rewrite drop_app_ge by done. done.
Qed.

Lemma Qred_inject_Z z : Qred (inject_Z z) = inject_Z z.
Proof.
  unfold Qred, inject_Z.
  pose proof (Z.ggcd_correct_divisors z 1) as Hd.
  pose proof (Z.ggcd_gcd z 1) as Hg.
  destruct (Z.ggcd z 1) as [g [a b]]. simpl in *.
  rewrite Z.gcd_1_r in Hg. subst g. destruct Hd as [Ha Hb].
  rewrite Z.mul_1_l in Ha, Hb. subst. reflexivity.
Qed.

Lemma triIndex_nnat c :
  ndiv (ndiv (nnat (9 * c)) (Fin 3)) (Fin 3) = nnat c.
Proof.
  unfold nnat, ndiv. cbn [qsign Qcompare]. simpl.
  f_equal. rewrite <- (Qred_inject_Z (Z.of_nat c)).
  apply Qred_complete. rewrite Qred_correct.
  unfold Qeq, Qdiv, Qmult, Qinv, inject_Z. simpl. lia.
Qed.

Lemma length_tri_cells l : length (concat (map tri_cells l)) = 9 * length l.
Proof. induction l as [|x l IH]; cbn [map concat]; [done|]. rewrite length_app, IH. simpl. lia. Qed.

Lemma length_bufferNode_at e c : length (bufferNode_at e c) = 9.
Proof. done. Qed.

Lemma pack_step_eq tris B T c e :
  length T = 9 * c ->
  pack_step tris (B, T) e =
    (B ++ bufferNode_at e c,
     T ++ concat (map tri_cells
            (if is_leaf (s_node e) then getTriangles tris (t_node (s_node e)) else []))).
Proof.
  intros HT. unfold pack_step, bufferNode_at. rewrite HT, triIndex_nnat.
  destruct (is_leaf (s_node e)); simpl; by rewrite ?app_nil_r.
Qed.

Lemma pack_fold tris rs B T c :
  length T = 9 * c ->
  fold_left (pack_step tris) rs (B, T) =
    (B ++ emit tris rs c, T ++ concat (map tri_cells (leaf_tris tris rs))).
Proof.
  revert B T c. induction rs as [|e rs IH]; intros B T c HT; cbn [fold_left].
  - by rewrite !app_nil_r.
  - rewrite (pack_step_eq _ _ _ c) by done.
    rewrite (IH _ _ (c + leaf_count tris e)).
    + unfold leaf_tris. cbn [emit map concat].
      by rewrite map_app, concat_app, !app_assoc.
    + rewrite length_app, length_tri_cells, HT. unfold leaf_count.
      destruct (is_leaf (s_node e)); simpl; lia.
Qed.

Lemma pack_eq tris rs :
  pack tris rs = (emit tris rs 0, concat (map tri_cells (leaf_tris tris rs))).
Proof. unfold pack. by rewrite (pack_fold _ _ _ _ 0). Qed.

Lemma emit_lookup tris rs c p j e :
  rs !! p = Some e -> j < 9 ->
  emit tris rs c !! (9 * p + j) =
    bufferNode_at e (c + sum_list (map (leaf_count tris) (take p rs))) !! j.
Proof.
  revert c p. induction rs as [|e' rs IH]; intros c p Hp Hj; [by rewrite lookup_nil in Hp|].
  destruct p as [|p]; simpl in Hp; cbn [emit take map sum_list].
  - injection Hp as <-. rewrite lookup_app_l by (rewrite length_bufferNode_at; lia).
    by rewrite Nat.add_0_r.
  - rewrite lookup_app_r by (rewrite length_bufferNode_at; lia).
    rewrite length_bufferNode_at.
    replace (9 * S p + j - 9) with (9 * p + j) by lia.
    rewrite IH by done. by rewrite Nat.add_assoc.
Qed.

Lemma lookup_map' {A B} (f : A -> B) (l : list A) k :
  map f l !! k = f <$> l !! k.
Proof. revert k. induction l as [|x l IH]; intros [|k]; simpl; auto. Qed.

Lemma maskBVHBuffer_lookup B p j v :
  j < 3 -> B !! (9 * p + j) = Some v ->
  maskBVHBuffer B !! (9 * p + j) = Some (Bits (ToInt32 v)).
Proof.
  intros Hj Hv. unfold maskBVHBuffer.
  assert (Hin : forall i (m : list cell), (exists q, i = 9 * q) ->
    fold_left (fun m j => <[i + j := F32 (nth (i + j) B JUndefined)]> m) (seq 3 6) m
      !! (9 * p + j) = m !! (9 * p + j)).
  { intros i m [q ->]. simpl.
    rewrite !list_lookup_insert_ne by lia. done. }
  assert (Hout : forall qs (m : list cell), (forall i, i ∈ qs -> exists q, i = 9 * q) ->
    fold_left (fun m i => fold_left (fun m j => <[i + j := F32 (nth (i + j) B JUndefined)]> m)
                            (seq 3 6) m) qs m !! (9 * p + j) = m !! (9 * p + j)).
  { induction qs as [|i qs IH]; intros m Hq; simpl; [done|].
    rewrite IH by (intros i' Hi'; apply Hq; by right).
    apply Hin, Hq. by left. }
  rewrite Hout.
  - by rewrite lookup_map', Hv.
  - intros i Hi. apply list_elem_of_In, in_map_iff in Hi as (q & <- & _). by exists q.
Qed.

(** C7: [serializeTree] lists the nodes in depth-first preorder (so the
    root is at ordinal 0); the record of an internal node at ordinal [p]
    names its left child [p+1] and its right child [p+1+|left subtree|],
    and the two subtrees occupy the contiguous ordinal ranges that follow;
    the packer appends the leaves' triangles record by record, and the
    [triangleBaseIndex] of a leaf at ordinal [p] is the number of
    triangles emitted by the records before it. *)
Theorem serializeTree_preorder (tris : list Triangle) (t : tree) :
  map s_node (serializeTree t) = preorder t /\
  preorder t !! 0 = Some t /\
  (forall p e, serializeTree t !! p = Some e ->
     match s_node e with
     | Inner _ l r =>
         s_left e = Some (Z.of_nat p + 1)%Z /\
         s_right e = Some (Z.of_nat p + 1 + Z.of_nat (tsize l))%Z /\
         take (tsize l) (drop (p + 1) (preorder t)) = preorder l /\
         take (tsize r) (drop (p + 1 + tsize l) (preorder t)) = preorder r
     | Leaf _ =>
         fst (pack tris (serializeTree t)) !! (9 * p + 2) =
           Some (JNum (nnat (sum_list (map (leaf_count tris) (take p (serializeTree t))))))
     end) /\
  snd (pack tris (serializeTree t)) =
    concat (map tri_cells (leaf_tris tris (serializeTree t))).
Proof.
  rewrite serializeTree_serial. split; [apply serial_nodes|].
  split; [by destruct t|]. split; [|by rewrite pack_eq].
  intros p e H.
  assert (Hpre : preorder t !! p = Some (s_node e)).
  { rewrite <- (serial_nodes t 0), lookup_map', H. done. }
  pose proof (serial_lookup _ _ _ _ H) as Hl.
  destruct (s_node e) as [n|n l r] eqn:En.
  - rewrite pack_eq. simpl fst.
    rewrite (emit_lookup _ _ _ _ 2 e H) by lia.
    unfold bufferNode_at. rewrite En. done.
  - destruct Hl as [-> ->].
    destruct (preorder_block _ _ _ Hpre) as [rest Hr]. simpl in Hr.
    assert (Hd : drop (p + 1) (preorder t) = preorder l ++ preorder r ++ rest).
    { by rewrite <- drop_drop, Hr, <- app_assoc. }
    split; [f_equal; lia|]. split; [f_equal; lia|].
    rewrite <- (drop_drop _ (tsize l) (p + 1)), Hd, <- (length_preorder l),
      <- (length_preorder r).
    rewrite take_app_length, drop_app_length, take_app_length. done.
Qed.

(** C2 (amended): a leaf's record in [bvhBuffer] has [undefined] in its
    two child cells, which the Int32 view made by [maskBVHBuffer] stores
    as 0 (not -1), and its [triangleBaseIndex] is the number of triangles
    emitted before it; an internal node's [triangleBaseIndex] is -1, stored
    as the Int32 -1. This holds for every tree. *)
Theorem bvhBuffer_records (tris : list Triangle) (t : tree) (p : nat) (e : SRec) :
  serializeTree t !! p = Some e ->
  let B := fst (pack tris (serializeTree t)) in
  if is_leaf (s_node e) then
    B !! (9 * p) = Some JUndefined /\ B !! (9 * p + 1) = Some JUndefined /\
    maskBVHBuffer B !! (9 * p) = Some (Bits 0) /\
    maskBVHBuffer B !! (9 * p + 1) = Some (Bits 0) /\
    B !! (9 * p + 2) =
      Some (JNum (nnat (sum_list (map (leaf_count tris) (take p (serializeTree t))))))
  else
    B !! (9 * p + 2) = Some (JNum (Fin (-1))) /\
    maskBVHBuffer B !! (9 * p + 2) = Some (Bits (-1)).
Proof.
  intros H B.
  assert (HB : forall j, j < 9 -> B !! (9 * p + j) =
            bufferNode_at e (sum_list (map (leaf_count tris) (take p (serializeTree t)))) !! j).
  { intros j Hj. unfold B. rewrite pack_eq. simpl fst.
    by rewrite (emit_lookup _ _ _ _ _ e H). }
  rewrite serializeTree_serial in H.
  pose proof (serial_lookup _ _ _ _ H) as Hl.
  unfold bufferNode_at in HB.
  destruct (s_node e) as [n|n l r] eqn:En; cbn [is_leaf].
  - destruct Hl as [HL HR]. rewrite HL, HR in HB.
    assert (H0 : B !! (9 * p + 0) = Some JUndefined) by (rewrite HB; [done|lia]).
    assert (H1 : B !! (9 * p + 1) = Some JUndefined) by (rewrite HB; [done|lia]).
    rewrite Nat.add_0_r in H0.
    split; [done|]. split; [done|].
    split.
    { replace (9 * p) with (9 * p + 0) by lia.
      apply (maskBVHBuffer_lookup _ _ _ JUndefined); [lia|by rewrite Nat.add_0_r]. }
    split; [apply (maskBVHBuffer_lookup _ _ _ JUndefined); [lia|done]|].
    rewrite HB by lia. done.
  - assert (H2 : B !! (9 * p + 2) = Some (JNum (Fin (-1)))) by (rewrite HB; [done|lia]).
    split; [done|]. apply (maskBVHBuffer_lookup _ _ _ (JNum (Fin (-1)))); [lia|done].
Qed.

(** ** Render loop *)

Module RenderLoopProps.
Import RenderLoop.

Lemma screen_fb_lt i : i < 2 -> screen_fb i = FbScreen i.
Proof. intros H. unfold screen_fb. by destruct (decide (i < 2)). Qed.

Lemma screen_fb_ge i : 2 <= i -> screen_fb i = FbDefault.
Proof. intros H. unfold screen_fb. destruct (decide (i < 2)); [lia|done]. Qed.

(** C1: when [clear] runs (not moving) with [pingpong >= 1], which is the
    case whenever the tick that handles [dirty] has drawn, only
    [screen[0]] is zeroed: the second binding is [screen[pingpong + 1]],
    which is [undefined], so the default framebuffer (the canvas) is
    cleared and [screen[1]] keeps its samples. *)
Theorem clear_skips_screen1 (s : RState) :
  moving s = false -> 1 <= pingpong s -> length (screens s) = 2 ->
  screens (clear s) = <[0 := 0%Z]> (screens s) /\
  nth 1 (screens (clear s)) 0%Z = nth 1 (screens s) 0%Z /\
  canvas (clear s) = 0%Z /\ pingpong (clear s) = 0 /\ dirty (clear s) = false.
Proof.
  intros Hm Hp Hl. unfold clear. rewrite Hm.
  rewrite (screen_fb_lt 0) by lia. cbn.
  rewrite (screen_fb_ge (pingpong s + 1)) by lia. cbn.
  destruct (screens s) as [|a [|b [|c l]]]; simpl in Hl; try lia.
  done.
Qed.

(** One tick with [max = m], [frame >= 0], [active], not dirty, and
    [pingpong < m]. *)
Lemma tick_draw (m : nat) (f : Z) (s : RState) :
  pingpong s < m -> dirty s = false -> active s = true -> (0 <= f)%Z ->
  exists s1,
    pingpong s1 = S (pingpong s) /\ dirty s1 = false /\ active s1 = true /\
    passes s1 = passes s ++ [PCamera; PTracer (pingpong s); PQuad (S (pingpong s))] /\
    tick (Some (Z.of_nat m)) f s =
      if bool_decide (S (pingpong s) = m) then (log s1 PUpload, true) else (s1, false).
Proof.
  destruct s as [p d mv a rs b sc cv ps]; cbn [pingpong dirty active passes].
  intros Hp -> -> Hf.
  assert (E1 : truthy_int (Some (Z.of_nat m)) = true).
  { unfold truthy_int. apply negb_true_iff, Z.eqb_neq. lia. }
  assert (E2 : le_max p (Some (Z.of_nat m)) = true).
  { unfold le_max. apply Z.leb_le. lia. }
  assert (E3 : ge_max (S p) (Some (Z.of_nat m)) = bool_decide (S p = m)).
  { unfold ge_max. apply Bool.eq_iff_eq_true. rewrite Z.leb_le, bool_decide_eq_true. lia. }
  assert (E4 : Z.leb 0 f = true) by (apply Z.leb_le; lia).
  unfold tick. cbn [pingpong dirty active moving resScale bound screens canvas passes].
  rewrite E1, E2. cbn -[ge_max Z.leb].
  rewrite E3, E4, andb_true_r.
  eexists. split_and!; cycle 4; [reflexivity|..]; try reflexivity.
  cbn. by rewrite <- !app_assoc.
Qed.

Lemma run_draw (n m : nat) (f : Z) (s : RState) :
  pingpong s + n = m -> 0 < n -> dirty s = false -> active s = true -> (0 <= f)%Z ->
  snd (run n (Some (Z.of_nat m)) f s) = true /\
  pingpong (fst (run n (Some (Z.of_nat m)) f s)) = m /\
  passes (fst (run n (Some (Z.of_nat m)) f s)) =
    passes s ++ concat (map tick_passes (seq (pingpong s) n)) ++ [PUpload] /\
  (forall k, k < n -> snd (run k (Some (Z.of_nat m)) f s) = false).
Proof.
  revert s. induction n as [|n IH]; intros s Hn Hpos Hd Ha Hf; [lia|].
  destruct (tick_draw m f s) as (s1 & Hp1 & Hd1 & Ha1 & Hps1 & Ht); [lia|done..|].
  assert (Hrun : forall k, run (S k) (Some (Z.of_nat m)) f s =
            if bool_decide (S (pingpong s) = m) then (log s1 PUpload, true)
            else run k (Some (Z.of_nat m)) f s1).
  { intros k. cbn [run]. rewrite Ht. by destruct (bool_decide _). }
  destruct (decide (n = 0)) as [->|Hn0].
  - rewrite Hrun, bool_decide_true by lia. cbn.
    split_and!; [done|lia| |].
    + rewrite Hps1. unfold tick_passes. by rewrite <- app_assoc.
    + intros k Hk. by replace k with 0 by lia.
  - rewrite Hrun, bool_decide_false by lia.
    destruct (IH s1) as (H1 & H2 & H3 & H4); [lia|lia|done..|].
    split_and!; [done|done| |].
    + rewrite H3, Hps1, Hp1. cbn [seq map concat]. unfold tick_passes.
      by rewrite <- !app_assoc.
    + intros [|k] Hk; [done|].
      rewrite Hrun, bool_decide_false by lia. apply H4. lia.
Qed.

(** C4 (amended): with [max = m], [frame >= 0], [active] and no
    invalidation, from a clean state with [pingpong = p < m] every tick
    runs a camera pass, a tracer pass on [pingpong] and the quad, and
    increments [pingpong]; the tick that brings [pingpong] to [m] (not
    [m + 1]) uploads, after [m - p] ticks, and no earlier tick does. The
    tracer passes are [p .. m-1]. *)
Theorem run_uploads_at_max (m : nat) (f : Z) (s : RState) :
  pingpong s < m -> dirty s = false -> active s = true -> (0 <= f)%Z ->
  snd (run (m - pingpong s) (Some (Z.of_nat m)) f s) = true /\
  pingpong (fst (run (m - pingpong s) (Some (Z.of_nat m)) f s)) = m /\
  passes (fst (run (m - pingpong s) (Some (Z.of_nat m)) f s)) =
    passes s ++ concat (map tick_passes (seq (pingpong s) (m - pingpong s))) ++ [PUpload] /\
  (forall k, k < m - pingpong s -> snd (run k (Some (Z.of_nat m)) f s) = false).
Proof. intros Hp Hd Ha Hf. apply run_draw; try done; lia. Qed.

(** C4, counterexample: with [max = 1] and [frame = 0], from a clean
    state with [pingpong = 0], the first tick uploads with [pingpong = 1],
    after a single tracer pass. *)
Lemma run_uploads_at_max_cex :
  let r := run 1 (Some 1%Z) 0%Z (set_counters (init true) 0 false) in
  snd r = true /\ pingpong (fst r) = 1 /\ pingpong (fst r) <> 1 + 1 /\
  passes (fst r) = [PCamera; PTracer 0; PQuad 1; PUpload].
Proof. vm_compute. split_and!; try reflexivity; discriminate. Qed.

(** C4, witness: [max = 3], [frame = 0], from a clean state. *)
Lemma run_uploads_at_max_witness :
  pingpong (fst (run 3 (Some 3%Z) 0%Z (set_counters (init true) 0 false))) = 3 /\
  passes (fst (run 3 (Some 3%Z) 0%Z (set_counters (init true) 0 false))) =
    [PCamera; PTracer 0; PQuad 1; PCamera; PTracer 1; PQuad 2;
     PCamera; PTracer 2; PQuad 3; PUpload].
Proof.
  destruct (run_uploads_at_max 3 0 (set_counters (init true) 0 false))
    as (_ & H2 & H3 & _); [cbn; lia|reflexivity|reflexivity|lia|].
  change (3 - pingpong (set_counters (init true) 0 false)) with 3 in H2, H3.
  change (Z.of_nat 3) with 3%Z in H2, H3.
  split; [exact H2|]. rewrite H3. reflexivity.
Defined.

(** C1, witness: a state met by [clear] after four samples (the tick
    that handles an invalidation has drawn into [screen[1]]). *)
Lemma clear_skips_screen1_witness :
  screens (clear (MkR 4 true false true 1 FbDefault [3%Z; 4%Z] 4%Z [])) = [0%Z; 4%Z].
Proof.
  destruct (clear_skips_screen1 (MkR 4 true false true 1 FbDefault [3%Z; 4%Z] 4%Z []))
    as [H _]; [reflexivity|cbn; lia|reflexivity|].
  rewrite H. reflexivity.
Defined.

(** The run behind C1: four ticks with [max = 2000] and no upload
    ([frame = -1]), an invalidation, and one more tick. [screen[1]] keeps
    its 4 samples through the clear, and the next tick accumulates on
    them: [screen[0]] holds 5 samples instead of 1. *)
Lemma invalidated_run_keeps_samples :
  let s4 := fst (run 4 (Some 2000%Z) (-1)%Z (init true)) in
  let s5 := fst (tick (Some 2000%Z) (-1)%Z (invalidate s4)) in
  let s6 := fst (tick (Some 2000%Z) (-1)%Z s5) in
  pingpong s5 = 0 /\ dirty s5 = false /\ screens s5 = [0%Z; 4%Z] /\
  screens s6 = [5%Z; 4%Z].
Proof. vm_compute. split_and!; reflexivity. Qed.

End RenderLoopProps.

(** ** Split selection and construction *)

(** C3: the loop of [setSplit] reads the back area at
    [surfacesBack[N-1-i]], the box of the last [N-i] triangles, where the
    cost of the split count [k = i+1] needs the box of the last [N-k]
    (bbBack[N-1-k]). On [tris3] the code and the spec's cost choose
    different splits: the code cuts the y-sorted list after two triangles,
    the spec the x-sorted list after one (at a lower cost, 9/4 against the
    code's 39/14); the builder's first two children follow the code. *)
Theorem setSplit_back_area_off_by_one :
  let xs := seq 0 (length tris3) in
  let idx := [sortIndices tris3 xs 0; sortIndices tris3 xs 1; sortIndices tris3 xs 2] in
  let b := addNode tris3 idx in
  idx = [[1; 2; 0]; [0; 1; 2]; [0; 1; 2]] /\
  splitAxis (setSplit tris3 idx b) = Some 1 /\ splitIndex (setSplit tris3 idx b) = Some 2 /\
  bestCost (setSplit tris3 idx b) = Fin (39 # 14) /\
  splitAxis (spec_setSplit tris3 idx b) = Some 0 /\
  splitIndex (spec_setSplit tris3 idx b) = Some 1 /\
  bestCost (spec_setSplit tris3 idx b) = Fin (9 # 4) /\
  match new_BVH tris3 1 with
  | Ok (Inner _ l r, _) => idx_of l = [[1; 0]; [0; 1]; [0; 1]] /\ idx_of r = [[2]; [2]; [2]]
  | _ => False
  end.
Proof. vm_compute. split_and!; reflexivity. Qed.

(** C5: five triangles collapsed to one point. The parent box has
    surface area 0, so every cost is [0/0 = NaN], [cost < bestCost] never
    holds and [splitAxis]/[splitIndex] stay undefined; with N = 5 > 4 the
    node is not a leaf, and [_constructCachedIndexList] reads
    [indices[undefined]] and throws a TypeError. *)
Theorem new_BVH_degenerate_TypeError :
  splitAxis (let idx := [[0; 1; 2; 3; 4]; [0; 1; 2; 3; 4]; [0; 1; 2; 3; 4]] in
             setSplit (repeat pt 5) idx (addNode (repeat pt 5) idx)) = None /\
  new_BVH (repeat pt 5) leafSize = TypeError.
Proof. vm_compute. split; reflexivity. Qed.

(** C6, witness: the build of [tris3] with at most one triangle per leaf
    succeeds and has an internal node. *)
Lemma buildTree_partition_witness :
  exists t d, new_BVH tris3 1 = Ok (t, d) /\ is_leaf t = false /\
    all_inner partition_ok t /\ leaf_indices t ≡ₚ seq 0 (length tris3).
Proof.
  destruct (new_BVH tris3 1) as [[t d]| |] eqn:E;
    [|vm_compute in E; discriminate..].
  exists t, d. split; [reflexivity|]. split.
  - vm_compute in E. injection E as <- _. reflexivity.
  - exact (buildTree_partition tris3 1 t d E).
Defined.

(** C2, counterexample: the single leaf of a one-triangle BVH. Its record
    starts with [undefined, undefined, 0] and the Int32 view with
    [0, 0, 0]: the child ordinals are 0, not -1. *)
Lemma leaf_children_not_minus1 :
  exists t d, new_BVH [s1] leafSize = Ok (t, d) /\ is_leaf t = true /\
    take 3 (fst (pack [s1] (serializeTree t))) = [JUndefined; JUndefined; JNum (Fin 0)] /\
    take 3 (maskBVHBuffer (fst (pack [s1] (serializeTree t)))) = [Bits 0; Bits 0; Bits 0].
Proof.
  destruct (new_BVH [s1] leafSize) as [[t d]| |] eqn:E;
    [|vm_compute in E; discriminate..].
  exists t, d. split; [reflexivity|].
  vm_compute in E. injection E as <- _.
  split_and!; vm_compute; reflexivity.
Qed.

(** C2, witness: the root record of the two-leaf tree built from
    [tris3] with [maxTris = 2]. *)
Lemma bvhBuffer_records_witness :
  exists t d, new_BVH tris3 2 = Ok (t, d) /\
    fst (pack tris3 (serializeTree t)) !! 2 = Some (JNum (Fin (-1))) /\
    maskBVHBuffer (fst (pack tris3 (serializeTree t))) !! 2 = Some (Bits (-1)).
Proof.
  destruct (new_BVH tris3 2) as [[t d]| |] eqn:E;
    [|vm_compute in E; discriminate..].
  exists t, d. split; [reflexivity|].
  destruct (serializeTree t !! 0) as [e|] eqn:He;
    [|vm_compute in E; injection E as <- _; vm_compute in He; discriminate].
  pose proof (bvhBuffer_records tris3 t 0 e He) as H.
  vm_compute in E. injection E as <- _. vm_compute in He. injection He as <-.
  exact H.
Defined.

(** ** Autofocus *)

Lemma Qle_bool_false x y : Qle_bool x y = false -> (y < x)%Q.
Proof. intros H. apply Qnot_le_lt. intros H'. apply Qle_bool_iff in H'. congruence. Qed.
Lemma Qle_bool_true x y : Qle_bool x y = true -> (x <= y)%Q.
Proof. apply Qle_bool_iff. Qed.

(** C8 (amended): [rayTriangleIntersect] returns [maxT] when
    [-epsilon < det < epsilon] (the ray parallel to the triangle's plane),
    when [u < 0] or [u > 1], when [v < 0] or [u + v > 1], and when the
    distance [t <= epsilon]; otherwise it returns [t]. The sign of [det] is
    never tested: a back face ([det <= -epsilon]) goes through the same
    barycentric and distance tests as a front face. *)
Theorem rayTriangleIntersect_cases (eye dir : vec3) (tri : Triangle) :
  let e1 := Vec3_sub (v1 tri) (v0 tri) in
  let e2 := Vec3_sub (v2 tri) (v0 tri) in
  let p := Vec3_cross dir e2 in
  let det := Vec3_dot e1 p in
  let invDet := ndiv (Fin 1) det in
  let tv := Vec3_sub eye (v0 tri) in
  let u := nmul (Vec3_dot tv p) invDet in
  let q := Vec3_cross tv e1 in
  let v := nmul (Vec3_dot dir q) invDet in
  let t := nmul (Vec3_dot e2 q) invDet in
  let r := rayTriangleIntersect eye dir tri in
  let parallel := ngt det (nneg epsilon) && nlt det epsilon in
  let u_out := nlt u (Fin 0) || ngt u (Fin 1) in
  let v_out := nlt v (Fin 0) || ngt (nadd u v) (Fin 1) in
  (parallel = true -> r = maxT) /\
  (parallel = false -> u_out = true -> r = maxT) /\
  (parallel = false -> u_out = false -> v_out = true -> r = maxT) /\
  (parallel = false -> u_out = false -> v_out = false -> ngt t epsilon = false -> r = maxT) /\
  (parallel = false -> u_out = false -> v_out = false -> ngt t epsilon = true -> r = t) /\
  (r = maxT \/ ngt r epsilon = true).
Proof.
  unfold rayTriangleIntersect. cbv zeta.
  split_and!; intros;
    repeat match goal with H : ?c = _ |- context [if ?c then _ else _] => rewrite H end;
    try reflexivity.
  repeat case_match; auto.
Qed.

(** C8, counterexample: [s1r] seen from [eyeA] looking down [-z] is a back
    face ([det = -1 < -epsilon]); it is hit at distance 1. *)
Lemma back_face_hit :
  let det := Vec3_dot (Vec3_sub (v1 s1r) (v0 s1r))
               (Vec3_cross (qv 0 0 (-1)) (Vec3_sub (v2 s1r) (v0 s1r))) in
  det = Fin (-1) /\ nlt det (nneg epsilon) = true /\
  rayTriangleIntersect eyeA (qv 0 0 (-1)) s1r = Fin 1 /\ Fin 1 <> maxT.
Proof. vm_compute. split_and!; try reflexivity. intros H. inversion H. Qed.

(** C8, witness: the back face [s1r] passes every test and is hit at
    [t = 1]. *)
Lemma rayTriangleIntersect_cases_witness :
  rayTriangleIntersect eyeA (qv 0 0 (-1)) s1r = Fin 1.
Proof.
  pose proof (rayTriangleIntersect_cases eyeA (qv 0 0 (-1)) s1r) as H. cbv zeta in H.
  destruct H as (_ & _ & _ & _ & H & _).
  etransitivity; [apply H|]; vm_compute; reflexivity.
Defined.

Lemma processLeaf_no_hit tris eye dir n :
  forallb (fun tri => negb (nlt (rayTriangleIntersect eye dir tri) maxT)) (getTriangles tris n) = true ->
  processLeaf tris eye dir n = maxT.
Proof.
  unfold processLeaf. induction (getTriangles tris n) as [|tri l IH]; simpl; [done|].
  intros [H1 H2]%andb_true_iff. apply negb_true_iff in H1. rewrite H1. by apply IH.
Qed.

Lemma findTriangles_no_hit tris eye dir t :
  no_hit tris eye dir t = true -> findTriangles tris eye dir t maxT = maxT.
Proof.
  unfold no_hit. induction t as [n|n l IHl r IHr]; intros H; simpl in H |- *.
  - apply processLeaf_no_hit. by apply andb_true_iff in H as [H _].
  - rewrite forallb_app in H. apply andb_true_iff in H as [Hl Hr].
    specialize (IHl Hl). specialize (IHr Hr).
    induction (closestNode eye dir (t_node l) (t_node r)) as [|[o tt] es IH]; simpl; [done|].
    destruct o as [[|]|]; [|destruct (nlt tt maxT)|]; try done.
    + destruct (nlt tt maxT); [|done]. rewrite IHl. exact IH.
    + rewrite IHr. exact IH.
Qed.

(** C9 (amended): on a miss, [findTriangles] returns the sentinel
    [maxT = 1e6]; the caller then sets [lensFeatures[0] = 1 - 1/1e6] and
    displays the focal depth [1e6.toFixed(3)] = ["1000000.000"], a finite
    value, not infinity. In every case, for the distance [d] returned,
    [lensFeatures[0] := 1 - 1/d], [lensFeatures[1]] (the aperture) is
    left as it is, and the focal depth shown is [d.toFixed(3)]. *)
Theorem shootAutoFocusRay_miss (tris : list Triangle) (eye dir : vec3) (root : tree)
    (s : FocusState) :
  (let d := findTriangles tris eye dir root maxT in
   lensFeatures (shootAutoFocusRay tris eye dir root s) =
     <[0 := nsub (Fin 1) (ndiv (Fin 1) d)]> (lensFeatures s) /\
   lensFeatures (shootAutoFocusRay tris eye dir root s) !! 1 = lensFeatures s !! 1 /\
   focalDepthValue (shootAutoFocusRay tris eye dir root s) = toFixed3 d) /\
  (no_hit tris eye dir root = true ->
   findTriangles tris eye dir root maxT = maxT /\
   lensFeatures (shootAutoFocusRay tris eye dir root s) =
     <[0 := Fin (999999 # 1000000)]> (lensFeatures s) /\
   focalDepthValue (shootAutoFocusRay tris eye dir root s) = DFixed 1000000000).
Proof.
  split.
  - cbn zeta. unfold shootAutoFocusRay. cbn [lensFeatures focalDepthValue].
    split_and!; [done| |done]. by rewrite list_lookup_insert_ne.
  - intros H. pose proof (findTriangles_no_hit _ _ _ _ H) as Hm.
    unfold shootAutoFocusRay. cbn [lensFeatures focalDepthValue]. rewrite Hm.
    split_and!; [done|reflexivity|reflexivity].
Qed.

(** C9, counterexample: a ray from [eyeA] pointing away from [s1] misses;
    the focal depth shown is 1000000.000, not infinity. *)
Lemma autofocus_miss_not_infinity :
  exists t d, new_BVH [s1] leafSize = Ok (t, d) /\
    findTriangles [s1] eyeA (qv 0 0 1) t maxT = maxT /\
    focalDepthValue (shootAutoFocusRay [s1] eyeA (qv 0 0 1) t (MkFocus [Fin 0; Fin (1 # 10)] DNaN))
      = DFixed 1000000000 /\
    focalDepthValue (shootAutoFocusRay [s1] eyeA (qv 0 0 1) t (MkFocus [Fin 0; Fin (1 # 10)] DNaN))
      <> DInfinity.
Proof.
  destruct (new_BVH [s1] leafSize) as [[t d]| |] eqn:E;
    [|vm_compute in E; discriminate..].
  exists t, d. split; [reflexivity|].
  vm_compute in E. injection E as <- _.
  split_and!; [vm_compute; reflexivity|vm_compute; reflexivity|vm_compute; discriminate].
Qed.

(** C9, witness: the same miss. *)
Lemma shootAutoFocusRay_miss_witness :
  exists t d, new_BVH [s1] leafSize = Ok (t, d) /\
    lensFeatures (shootAutoFocusRay [s1] eyeA (qv 0 0 1) t (MkFocus [Fin 0; Fin (1 # 10)] DNaN))
      = [Fin (999999 # 1000000); Fin (1 # 10)].
Proof.
  destruct (new_BVH [s1] leafSize) as [[t d]| |] eqn:E;
    [|vm_compute in E; discriminate..].
  exists t, d. split; [reflexivity|].
  destruct (shootAutoFocusRay_miss [s1] eyeA (qv 0 0 1) t (MkFocus [Fin 0; Fin (1 # 10)] DNaN))
    as [_ H].
  destruct H as (_ & H & _);
    [vm_compute in E; injection E as <- _; vm_compute; reflexivity|].
  rewrite H. reflexivity.
Defined.

(** ** getMaterial *)

Lemma js_or_chain a b c :
  js_or (js_or a b) c = if truthy a then a else if truthy b then b else c.
Proof.
  unfold js_or. destruct (truthy a) eqn:Ea; cbv iota; [by rewrite Ea|done].
Qed.

(** C10 (amended): the chains [a || b || default] select by truthiness.
    The resolved [ior] is the material's value if truthy, else the
    transforms' value if truthy, else 1.4; likewise [dielectric] with the
    default -1. A zero (or absent) value falls through to the next
    source, so the result is always truthy: 0 is never resolved; it
    resolves to the default only when the next source is also falsy. *)
Theorem getMaterial_truthy_fallback (transforms groupMaterial : gmap string JSValue) :
  truthy (m_ior (getMaterial_scalars transforms groupMaterial)) = true /\
  truthy (m_dielectric (getMaterial_scalars transforms groupMaterial)) = true /\
  m_ior (getMaterial_scalars transforms groupMaterial) =
    (if truthy (prop groupMaterial "ior") then prop groupMaterial "ior"
     else if truthy (prop transforms "ior") then prop transforms "ior"
     else JSNum (Fin (14 # 10))) /\
  m_dielectric (getMaterial_scalars transforms groupMaterial) =
    (if truthy (prop groupMaterial "dielectric") then prop groupMaterial "dielectric"
     else if truthy (prop transforms "dielectric") then prop transforms "dielectric"
     else JSNum (Fin (-1))).
Proof.
  unfold getMaterial_scalars. cbn [m_ior m_dielectric]. rewrite !js_or_chain.
  split_and!; try reflexivity.
  - destruct (truthy (prop groupMaterial "ior")) eqn:E1; [done|].
    destruct (truthy (prop transforms "ior")) eqn:E2; [done|]. reflexivity.
  - destruct (truthy (prop groupMaterial "dielectric")) eqn:E1; [done|].
    destruct (truthy (prop transforms "dielectric")) eqn:E2; [done|]. reflexivity.
Qed.

(** C10, counterexample: a material [ior] of 0 with the transforms giving
    1.5 resolves to 1.5, not to the default 1.4. *)
Lemma zero_ior_takes_transforms :
  m_ior (getMaterial_scalars {[ "ior" := JSNum (Fin (3 # 2)) ]} {[ "ior" := JSNum (Fin 0) ]})
    = JSNum (Fin (3 # 2)) /\
  JSNum (Fin (3 # 2)) <> JSNum (Fin (14 # 10)).
Proof. split; [vm_compute; reflexivity|intros H; inversion H]. Qed.

(** * Further properties of the BVH builder, the buffers, the render loop and the input events *)

(* ---- order on numbers ---- *)
Lemma nle_Fin x y : nle (Fin x) (Fin y) = Qle_bool x y.
Proof. unfold nle, nlt. by rewrite negb_involutive. Qed.

Lemma nle_trans a b c : nle a b = true -> nle b c = true -> nle a c = true.
Proof.
  destruct a as [x| | |], b as [y| | |], c as [z| | |]; rewrite ?nle_Fin; try done.
  rewrite !Qle_bool_iff. apply Qle_trans.
Qed.

Lemma nle_refl a : a <> NaN -> nle a a = true.
Proof. destruct a as [x| | |]; try done. intros _. rewrite nle_Fin. apply Qle_bool_iff, Qle_refl. Qed.

Lemma Math_min_cases a b : a <> NaN -> b <> NaN -> Math_min a b = a \/ Math_min a b = b.
Proof.
  intros Ha Hb. unfold Math_min.
  destruct a, b; try done; destruct (nlt _ _); auto.
Qed.

Lemma Math_max_cases a b : a <> NaN -> b <> NaN -> Math_max a b = a \/ Math_max a b = b.
Proof.
  intros Ha Hb. unfold Math_max.
  destruct a, b; try done; destruct (nlt _ _); auto.
Qed.

Lemma nlt_false_nle a b : a <> NaN -> b <> NaN -> nlt a b = false -> nle b a = true.
Proof. intros Ha Hb H. destruct a, b; try done; unfold nle; by rewrite H. Qed.

Lemma nlt_nle a b : nlt a b = true -> nle a b = true.
Proof.
  destruct a as [x| | |], b as [y| | |]; try done. rewrite nle_Fin. simpl.
  intros H. apply negb_true_iff in H. apply Qle_bool_false in H. apply Qle_bool_iff. lra.
Qed.

Lemma Math_min_le_l a b : a <> NaN -> b <> NaN -> nle (Math_min a b) a = true.
Proof.
  intros Ha Hb. unfold Math_min.
  destruct a, b; try done;
  match goal with |- nle (if ?c then _ else _) _ = true =>
    destruct c eqn:E; [by apply nlt_nle|apply nle_refl; done] end.
Qed.

Lemma Math_min_le_r a b : a <> NaN -> b <> NaN -> nle (Math_min a b) b = true.
Proof.
  intros Ha Hb. unfold Math_min.
  destruct a, b; try done;
  match goal with |- nle (if ?c then _ else _) _ = true =>
    destruct c eqn:E; [apply nle_refl; done|by apply nlt_false_nle] end.
Qed.

Lemma Math_max_ge_l a b : a <> NaN -> b <> NaN -> nle a (Math_max a b) = true.
Proof.
  intros Ha Hb. unfold Math_max.
  destruct a, b; try done;
  match goal with |- nle _ (if ?c then _ else _) = true =>
    destruct c eqn:E; [by apply nlt_nle|apply nle_refl; done] end.
Qed.

Lemma Math_max_ge_r a b : a <> NaN -> b <> NaN -> nle b (Math_max a b) = true.
Proof.
  intros Ha Hb. unfold Math_max.
  destruct a, b; try done;
  match goal with |- nle _ (if ?c then _ else _) = true =>
    destruct c eqn:E; [apply nle_refl; done|by apply nlt_false_nle] end.
Qed.

Lemma vget_vmap2 f x y a : a < 3 -> vget (vmap2 f x y) a = f (vget x a) (vget y a).
Proof. intros Ha. destruct a as [|[|[|a]]]; simpl; try done; lia. Qed.

Lemma addVertex_fold vs b a : a < 3 ->
  vget (bmin (fold_left addVertex vs b)) a =
    fold_left (fun acc v => Math_min (vget v a) acc) vs (vget (bmin b) a) /\
  vget (bmax (fold_left addVertex vs b)) a =
    fold_left (fun acc v => Math_max (vget v a) acc) vs (vget (bmax b) a).
Proof.
  intros Ha. revert b. induction vs as [|v vs IH]; intros b; simpl; [done|].
  rewrite (proj1 (IH _)), (proj2 (IH _)). unfold addVertex, Vec3_min, Vec3_max. simpl.
  by rewrite !vget_vmap2.
Qed.

Lemma addNode_fold tris idx : addNode tris idx = fold_left addVertex (node_verts tris idx) emptyBox.
Proof.
  unfold addNode, node_verts. generalize emptyBox.
  induction (nth 0 idx []) as [|k ks IH]; intros b; simpl; [done|].
  rewrite fold_left_app. apply IH.
Qed.

(** A selection operator: [op x y] is [x] or [y] and below both for [R]. *)
Section Select.

Variable op : num -> num -> num.

Variable R : num -> num -> bool.

Hypothesis op_cases : forall a b, a <> NaN -> b <> NaN -> op a b = a \/ op a b = b.

Hypothesis op_l : forall a b, a <> NaN -> b <> NaN -> R (op a b) a = true.

Hypothesis op_r : forall a b, a <> NaN -> b <> NaN -> R (op a b) b = true.

Hypothesis R_trans : forall a b c, R a b = true -> R b c = true -> R a c = true.

Hypothesis R_refl : forall a, a <> NaN -> R a a = true.

Lemma fold_select (f : vec3 -> num) vs acc :
  acc <> NaN -> (forall v, v ∈ vs -> f v <> NaN) ->
  let r := fold_left (fun acc v => op (f v) acc) vs acc in
  r <> NaN /\ (r = acc \/ exists v, v ∈ vs /\ r = f v) /\
  R r acc = true /\ (forall v, v ∈ vs -> R r (f v) = true) /\
  (forall m, R m acc = true -> (forall v, v ∈ vs -> R m (f v) = true) -> R m r = true).
Proof.
  revert acc. induction vs as [|w ws IH]; intros acc Ha Hv; simpl.
  - split_and!; [done|by left|by apply R_refl|by intros v Hin%elem_of_nil|].
    intros m Hm _. done.
  - assert (Hw : f w <> NaN) by (apply Hv; left).
    assert (Hop : op (f w) acc <> NaN) by (by destruct (op_cases _ _ Hw Ha) as [->| ->]).
    destruct (IH (op (f w) acc) Hop) as (H1 & H2 & H3 & H4 & H5).
    { intros v Hin. apply Hv. by right. }
    split_and!.
    + done.
    + destruct H2 as [->|(v & Hin & ->)].
      * destruct (op_cases _ _ Hw Ha) as [->| ->]; [right; exists w; split; [left|done]|by left].
      * right. exists v. split; [by right|done].
    + eapply R_trans; [exact H3|]. by apply op_r.
    + intros v Hin. apply elem_of_cons in Hin as [->|Hin].
      * eapply R_trans; [exact H3|]. by apply op_l.
      * by apply H4.
    + intros m Hm Hmv. apply H5; [|intros v Hin; apply Hmv; by right].
      destruct (op_cases _ _ Hw Ha) as [->| ->]; [apply Hmv; left|done].
Qed.

End Select.

Lemma nle_flip_trans a b c : nle b a = true -> nle c b = true -> nle c a = true.
Proof. intros H1 H2. eapply nle_trans; eauto. Qed.

Lemma fold_min (f : vec3 -> num) (vs : list vec3) acc :
  acc <> NaN -> (forall v, v ∈ vs -> f v <> NaN) ->
  let r := fold_left (fun acc v => Math_min (f v) acc) vs acc in
  r <> NaN /\ (r = acc \/ exists v, v ∈ vs /\ r = f v) /\
  nle r acc = true /\ (forall v, v ∈ vs -> nle r (f v) = true) /\
  (forall m, nle m acc = true -> (forall v, v ∈ vs -> nle m (f v) = true) -> nle m r = true).
Proof.
  apply (fold_select Math_min nle Math_min_cases).
  - intros a b Ha Hb. by apply Math_min_le_l.
  - intros a b Ha Hb. by apply Math_min_le_r.
  - apply nle_trans.
  - apply nle_refl.
Qed.

Lemma fold_max (f : vec3 -> num) (vs : list vec3) acc :
  acc <> NaN -> (forall v, v ∈ vs -> f v <> NaN) ->
  let r := fold_left (fun acc v => Math_max (f v) acc) vs acc in
  r <> NaN /\ (r = acc \/ exists v, v ∈ vs /\ r = f v) /\
  nle acc r = true /\ (forall v, v ∈ vs -> nle (f v) r = true) /\
  (forall m, nle acc m = true -> (forall v, v ∈ vs -> nle (f v) m = true) -> nle r m = true).
Proof.
  apply (fold_select Math_max (fun a b => nle b a) Math_max_cases).
  - intros a b Ha Hb. by apply Math_max_ge_l.
  - intros a b Ha Hb. by apply Math_max_ge_r.
  - intros a b c H1 H2. eapply nle_trans; eauto.
  - apply nle_refl.
Qed.

Lemma finite3_vget v a : finite3 v -> a < 3 -> exists q, vget v a = Fin q.
Proof. intros (x & y & z & ->) Ha. destruct a as [|[|[|a]]]; simpl; eauto; lia. Qed.

Lemma node_verts_finite tris idx v :
  all_verts tris -> v ∈ node_verts tris idx -> finite3 v.
Proof.
  intros Hall Hv. unfold node_verts in Hv.
  apply list_elem_of_In, in_concat in Hv as (l & Hl & Hv).
  apply in_map_iff in Hl as (k & <- & _).
  unfold tri_verts in Hv. destruct (tris !! k) as [t|] eqn:Ek; [|done].
  unfold all_verts in Hall. rewrite Forall_lookup in Hall.
  specialize (Hall k t Ek). rewrite Forall_forall in Hall. apply Hall.
  by apply list_elem_of_In.
Qed.

Lemma vget_not_NaN v a : finite3 v -> a < 3 -> vget v a <> NaN.
Proof. intros Hv Ha. destruct (finite3_vget v a Hv Ha) as [q ->]. done. Qed.

Lemma emptyBox_min a : a < 3 -> vget (bmin emptyBox) a = PInf.
Proof. intros Ha. destruct a as [|[|[|a]]]; simpl; try done; lia. Qed.

Lemma emptyBox_max a : a < 3 -> vget (bmax emptyBox) a = NInf.
Proof. intros Ha. destruct a as [|[|[|a]]]; simpl; try done; lia. Qed.

Lemma box_axes tris idx a : all_verts tris -> a < 3 ->
  let vs := node_verts tris idx in
  let m := vget (bmin (addNode tris idx)) a in
  let M := vget (bmax (addNode tris idx)) a in
  m <> NaN /\ M <> NaN /\
  (m = PInf \/ exists v, v ∈ vs /\ m = vget v a) /\
  (M = NInf \/ exists v, v ∈ vs /\ M = vget v a) /\
  (forall v, v ∈ vs -> nle m (vget v a) = true /\ nle (vget v a) M = true) /\
  (forall x, nle x PInf = true -> (forall v, v ∈ vs -> nle x (vget v a) = true) -> nle x m = true) /\
  (forall x, nle NInf x = true -> (forall v, v ∈ vs -> nle (vget v a) x = true) -> nle M x = true).
Proof.
  intros Hall Ha vs m M.
  assert (Hf : forall v, v ∈ vs -> vget v a <> NaN).
  { intros v Hv. apply vget_not_NaN; [|done]. by eapply node_verts_finite. }
  unfold m, M. rewrite addNode_fold. fold vs.
  destruct (addVertex_fold vs emptyBox a Ha) as [-> ->].
  rewrite emptyBox_min, emptyBox_max by done.
  destruct (fold_min (fun v => vget v a) vs PInf ltac:(done) Hf) as (A1 & A2 & _ & A4 & A5).
  destruct (fold_max (fun v => vget v a) vs NInf ltac:(done) Hf) as (B1 & B2 & _ & B4 & B5).
  split_and!; try done.
  intros v Hv. split; [by apply A4|by apply B4].
Qed.

Lemma addNode_in_box tris idx v :
  all_verts tris -> v ∈ node_verts tris idx -> in_box (addNode tris idx) v.
Proof.
  intros Hall Hv a Ha. destruct (box_axes tris idx a Hall Ha) as (_ & _ & _ & _ & H & _).
  by apply H.
Qed.

(** X1. [BoundingBox.addNode], through [addTriangle] and [addVertex]: the
    box of a node contains every vertex of the node's triangles. With no
    vertex it is the empty box (min +Infinity, max -Infinity); otherwise, on
    each axis, its min and its max are coordinates of some vertex of the
    node. *)
Theorem addNode_bounds (tris : list Triangle) (idx : list (list nat)) :
  all_verts tris ->
  (forall v, v ∈ node_verts tris idx -> in_box (addNode tris idx) v) /\
  (node_verts tris idx = [] -> addNode tris idx = emptyBox) /\
  (node_verts tris idx <> [] -> forall a, a < 3 ->
     (exists v, v ∈ node_verts tris idx /\ vget (bmin (addNode tris idx)) a = vget v a) /\
     (exists v, v ∈ node_verts tris idx /\ vget (bmax (addNode tris idx)) a = vget v a)).
Proof.
  intros Hall. split; [|split].
  - intros v Hv. by apply addNode_in_box.
  - intros E. rewrite addNode_fold, E. done.
  - intros Hne a Ha. destruct (box_axes tris idx a Hall Ha) as (_ & _ & Hm & HM & Hin & _).
    destruct (node_verts tris idx) as [|w ws] eqn:Evs; [done|].
    assert (Hw : w ∈ node_verts tris idx) by (rewrite Evs; left).
    destruct (finite3_vget w a (node_verts_finite _ _ _ Hall Hw) Ha) as [q Eq].
    destruct (Hin w ltac:(left)) as [H1 H2]. rewrite Eq in H1, H2.
    split.
    + destruct Hm as [Hm|Hm]; [|done]. by rewrite Hm in H1.
    + destruct HM as [HM|HM]; [|done]. by rewrite HM in H2.
Qed.

Lemma idx_inv_length idx b : idx_inv idx -> b < 3 -> length (nth b idx []) = length (nth 0 idx []).
Proof. intros (_ & _ & Hp) Hb. apply Permutation_length, Hp, Hb. Qed.

Lemma buildTree_shape tris m fuel idx depth md t d :
  idx_inv idx ->
  buildTree fuel tris m idx depth md = Ok (t, d) ->
  d = Nat.max md (depth + height t) /\
  t_node t = mkNode tris idx /\
  all_nodes (fun n => n = mkNode tris (n_indices n) /\ idx_inv (n_indices n)) t /\
  all_leaves (fun n => forall b, b < 3 -> length (nth b (n_indices n) []) <= m) t /\
  all_inner (fun n _ _ => forall b, b < 3 -> m < length (nth b (n_indices n) [])) t.
Proof.
  revert idx depth md t d.
  induction fuel as [|fuel IH]; intros idx depth md t d Hinv H; [discriminate|].
  cbn [buildTree] in H.
  set (a := match splitAxis (n_split (mkNode tris idx)) with Some a => a | None => 0 end) in H.
  assert (Ha : a < 3).
  { unfold a. destruct (splitAxis _) eqn:E; [|lia]. eapply setSplit_axis_range. exact E. }
  assert (Hlen : forall b, b < 3 -> length (nth b idx []) = length (nth a idx [])).
  { intros b Hb. rewrite (idx_inv_length idx b), (idx_inv_length idx a) by done. done. }
  destruct (length (nth a idx []) <=? m) eqn:Hle.
  { injection H as <- <-. apply Nat.leb_le in Hle. cbn [height all_nodes all_leaves all_inner t_node].
    split; [lia|]. split; [done|]. split; [split; [reflexivity|exact Hinv]|].
    split; [|done]. intros b Hb. rewrite Hlen by done. done. }
  apply Nat.leb_gt in Hle.
  destruct (constructCachedIndexList idx (splitAxis (n_split (mkNode tris idx)))
              (splitIndex (n_split (mkNode tris idx)))) as [[li ri]|] eqn:Hc;
    [|discriminate].
  destruct (buildTree fuel tris m li (S depth) (Nat.max depth md)) as [[l d1]| |] eqn:El;
    simpl in H; try discriminate.
  destruct (buildTree fuel tris m ri (S depth) d1) as [[r d2]| |] eqn:Er;
    simpl in H; try discriminate.
  injection H as <- <-.
  destruct (splitAxis (n_split (mkNode tris idx))) as [a'|] eqn:Ea; [|discriminate].
  destruct (splitIndex (n_split (mkNode tris idx))) as [k|] eqn:Ek; [|discriminate].
  assert (Ha' : a' < 3) by (eapply setSplit_axis_range; exact Ea).
  destruct (constructCachedIndexList_spec idx a' k li ri Hinv Ha' Hc)
    as (Hli & Hri & _ & _).
  destruct (IH li (S depth) (Nat.max depth md) l d1 Hli El) as (Dl & Nl & Al & Ll & Il).
  destruct (IH ri (S depth) d1 r d2 Hri Er) as (Dr & Nr & Ar & Lr & Ir).
  cbn [height all_nodes all_leaves all_inner t_node]. split; [lia|]. split; [done|].
  split; [split_and!; [reflexivity|exact Hinv|done|done]|]. split; [by split|].
  split_and!; try done. intros b Hb. rewrite Hlen by done. done.
Qed.

Lemma new_BVH_shape tris maxTris t d :
  new_BVH tris maxTris = Ok (t, d) ->
  d = height t /\
  all_nodes (fun n => n = mkNode tris (n_indices n) /\ idx_inv (n_indices n)) t /\
  all_leaves (fun n => forall b, b < 3 -> length (nth b (n_indices n) []) <= maxTris) t /\
  all_inner (fun n _ _ => forall b, b < 3 -> maxTris < length (nth b (n_indices n) [])) t.
Proof.
  unfold new_BVH. intros H.
  destruct (buildTree_shape _ _ _ _ _ _ _ _ (new_BVH_idx_inv tris) H) as (D & _ & A & L & I).
  split; [lia|]. done.
Qed.

Lemma box_le_subset tris i o :
  all_verts tris ->
  (forall x, x ∈ nth 0 i [] -> x ∈ nth 0 o []) ->
  box_le (addNode tris i) (addNode tris o).
Proof.
  intros Hall Hsub a Ha.
  assert (Hv : forall v, v ∈ node_verts tris i -> v ∈ node_verts tris o).
  { unfold node_verts. intros v Hv.
    apply list_elem_of_In, in_concat in Hv as (l & Hl & Hv).
    apply in_map_iff in Hl as (k & <- & Hk).
    apply list_elem_of_In, in_concat. exists (tri_verts tris k). split; [|done].
    apply in_map_iff. exists k. split; [done|]. apply list_elem_of_In, Hsub, list_elem_of_In, Hk. }
  destruct (box_axes tris i a Hall Ha) as (mi & Mi & _ & _ & Hi & _ & _).
  destruct (box_axes tris o a Hall Ha) as (mo & Mo & _ & _ & Ho & Glb & Lub).
  destruct (box_axes tris i a Hall Ha) as (_ & _ & _ & _ & _ & Glbi & Lubi).
  split.
  - apply Glbi.
    + destruct (vget (bmin (addNode tris o)) a); done.
    + intros v Hvi. apply (Ho v (Hv v Hvi)).
  - apply Lubi.
    + destruct (vget (bmax (addNode tris o)) a); done.
    + intros v Hvi. apply (Ho v (Hv v Hvi)).
Qed.

Lemma all_nodes_impl (P Q : Node -> Prop) t : (forall n, P n -> Q n) -> all_nodes P t -> all_nodes Q t.
Proof. intros HPQ. induction t; simpl; intuition. Qed.

Lemma all_inner_and (P Q : Node -> tree -> tree -> Prop) t :
  all_inner P t -> all_inner Q t -> all_inner (fun n l r => P n l r /\ Q n l r) t.
Proof. induction t; simpl; intuition. Qed.

Lemma all_inner_impl (P Q : Node -> tree -> tree -> Prop) t :
  (forall n l r, P n l r -> Q n l r) -> all_inner P t -> all_inner Q t.
Proof. intros HPQ. induction t; simpl; intuition. Qed.

Lemma all_nodes_root (P : Node -> Prop) t : all_nodes P t -> P (t_node t).
Proof. destruct t; simpl; tauto. Qed.

Lemma all_inner_nodes (P : Node -> Prop) (Q : Node -> tree -> tree -> Prop) t :
  all_nodes P t -> all_inner Q t ->
  all_inner (fun n l r => Q n l r /\ P n /\ P (t_node l) /\ P (t_node r)) t.
Proof.
  induction t as [n|n l IHl r IHr]; cbn [all_nodes all_inner]; [done|].
  intros (Pn & Pl & Pr) (Qn & Ql & Qr).
  split; [|split; [apply IHl|apply IHr]; done].
  split_and!; [done|done|apply (all_nodes_root P l Pl)|apply (all_nodes_root P r Pr)].
Qed.

(** X2. [new BVH]: the box of every node is the one [addNode] computes from
    the node's own triangle indices and contains all their vertices; the box
    of each child lies inside the box of its parent. *)
Theorem new_BVH_boxes (tris : list Triangle) (maxTris : nat) (t : tree) (d : nat) :
  all_verts tris -> new_BVH tris maxTris = Ok (t, d) ->
  all_nodes (fun n => n_box n = addNode tris (n_indices n) /\
               forall v, v ∈ node_verts tris (n_indices n) -> in_box (n_box n) v) t /\
  all_inner (fun n l r => box_le (n_box (t_node l)) (n_box n) /\
                          box_le (n_box (t_node r)) (n_box n)) t.
Proof.
  intros Hall H.
  destruct (new_BVH_shape _ _ _ _ H) as (_ & Hn & _ & _).
  assert (Hp : all_inner partition_ok t).
  { unfold new_BVH in H.
    destruct (buildTree_inv _ _ _ _ _ _ _ _ (new_BVH_idx_inv tris) H) as (_ & Hp & _). done. }
  split.
  - revert Hn. apply all_nodes_impl. intros n [En _]. rewrite En. cbn [n_box mkNode].
    split; [done|]. intros v Hv. by apply addNode_in_box.
  - pose proof (all_inner_nodes _ _ _ Hn Hp) as Hc. revert Hc. apply all_inner_impl.
    intros n l r (Hpart & [En _] & [El _] & [Er _]).
    destruct Hpart as (a & k & _ & _ & _ & _ & _ & Hb).
    destruct (Hb 0 ltac:(lia)) as (_ & Hcov & _).
    rewrite En, El, Er. cbn [n_box mkNode]. fold (idx_of l) (idx_of r). split.
    + apply box_le_subset; [done|]. intros x Hx. apply Hcov. by left.
    + apply box_le_subset; [done|]. intros x Hx. apply Hcov. by right.
Qed.

Section Sort.

Variable tris : list Triangle.

Variable axis : nat.

Local Notation key := (ckey tris axis).

Local Notation R := (fun i j => nle (key i) (key j) = true).

Local Notation gt := (centroid_gt tris axis).

Definition fin_keys (l : list nat) : Prop := forall i, i ∈ l -> exists q, key i = Fin q.

Lemma gt_key i j qi qj : key i = Fin qi -> key j = Fin qj -> gt i j = negb (Qle_bool qi qj).
Proof. intros Ei Ej. unfold centroid_gt, ngt. fold (key i) (key j). rewrite Ei, Ej. done. Qed.

Lemma R_key i j qi qj : key i = Fin qi -> key j = Fin qj -> nle (key i) (key j) = Qle_bool qi qj.
Proof. intros Ei Ej. rewrite Ei, Ej. apply nle_Fin. Qed.

Lemma R_trans_keys i j k : nle (key i) (key j) = true -> nle (key j) (key k) = true -> nle (key i) (key k) = true.
Proof. apply nle_trans. Qed.

Lemma insert_by_elem x l y : y ∈ insert_by gt x l <-> y = x \/ y ∈ l.
Proof. rewrite (insert_by_perm gt x l). set_solver. Qed.

Lemma insert_HdRel x l y :
  HdRel R y l -> R y x -> HdRel R y (insert_by gt x l).
Proof. destruct l as [|z l]; simpl; [by constructor|]. intros H Hyx. destruct (gt z x); constructor; [done|]. by inversion H. Qed.

Lemma insert_sorted x l :
  fin_keys (x :: l) -> Sorted R l -> Sorted R (insert_by gt x l).
Proof.
  induction l as [|y l IH]; intros Hf Hs; simpl; [repeat constructor|].
  destruct (Hf x ltac:(left)) as [qx Ex]. destruct (Hf y ltac:(right; left)) as [qy Ey].
  destruct (gt y x) eqn:G.
  - constructor; [done|]. constructor. rewrite (gt_key _ _ _ _ Ey Ex) in G.
    apply negb_true_iff, Qle_bool_false in G. rewrite (R_key _ _ _ _ Ex Ey). apply Qle_bool_iff. lra.
  - inversion Hs as [|? ? Hs' Hhd]; subst. constructor.
    + apply IH; [|done]. intros i Hi. apply Hf. set_solver.
    + apply insert_HdRel; [done|]. rewrite (gt_key _ _ _ _ Ey Ex) in G.
      apply negb_false_iff in G. by rewrite (R_key _ _ _ _ Ey Ex).
Qed.

Lemma insert_filter k x l :
  fin_keys (x :: l) -> Sorted R l ->
  filter (fun i => same_key (key i) k = true) (insert_by gt x l) =
    filter (fun i => same_key (key i) k = true) l ++
    filter (fun i => same_key (key i) k = true) [x].
Proof.
  induction l as [|y l IH]; intros Hf Hs; simpl; [done|].
  destruct (Hf x ltac:(left)) as [qx Ex]. destruct (Hf y ltac:(right; left)) as [qy Ey].
  assert (HSS : StronglySorted R (y :: l)).
  { apply Sorted_StronglySorted; [|done]. intros a b c. apply R_trans_keys. }
  destruct (gt y x) eqn:G.
  - rewrite (gt_key _ _ _ _ Ey Ex) in G. apply negb_true_iff, Qle_bool_false in G.
    destruct (same_key (key x) k) eqn:Px.
    + (* every element of [y :: l] has a key above [x]'s, so none is equivalent to [k] *)
      assert (Hnone : forall z, z ∈ y :: l -> same_key (key z) k = false).
      { intros z Hz. destruct (Hf z ltac:(by right)) as [qz Ez].
        assert (Hyz : nle (key y) (key z) = true).
        { apply elem_of_cons in Hz as [->|Hz]; [rewrite Ey; apply nle_refl; done|].
          inversion HSS as [|? ? _ Hall]; subst. rewrite Forall_forall in Hall. by apply Hall. }
        unfold same_key in Px |- *. apply andb_true_iff in Px as [Px1 Px2].
        destruct k as [qk| | |]; rewrite Ex in Px1, Px2; rewrite ?Ez; try done.
        rewrite (R_key _ _ _ _ Ey Ez) in Hyz. rewrite nle_Fin in Px1, Px2 |- *.
        apply Qle_bool_iff in Px1, Px2, Hyz. apply andb_false_iff. left.
        apply not_true_iff_false. rewrite Qle_bool_iff. lra. }
      rewrite filter_cons_True by done.
      rewrite (filter_none_in _ (y :: l)) by (intros z Hz; rewrite Hnone; done).
      rewrite filter_cons_True by done. done.
    + rewrite filter_cons_False by (cbv beta; rewrite Px; done).
      assert (Hx : filter (fun i => same_key (key i) k = true) [x] = []).
      { rewrite filter_cons_False by (cbv beta; rewrite Px; done). apply filter_nil. }
      by rewrite Hx, app_nil_r.
  - inversion Hs as [|? ? Hs' _]; subst.
    assert (Hf' : fin_keys (x :: l)) by (intros i Hi; apply Hf; set_solver).
    destruct (same_key (key y) k) eqn:Py.
    + rewrite !filter_cons_True by done. rewrite IH by done. done.
    + rewrite !filter_cons_False by (cbv beta; rewrite Py; done). by apply IH.
Qed.

Lemma fold_insert_spec xs acc :
  fin_keys (xs ++ acc) -> Sorted R acc ->
  let r := fold_left (fun acc x => insert_by gt x acc) xs acc in
  Sorted R r /\
  forall k, filter (fun i => same_key (key i) k = true) r =
            filter (fun i => same_key (key i) k = true) acc ++
            filter (fun i => same_key (key i) k = true) xs.
Proof.
  revert acc. induction xs as [|x xs IH]; intros acc Hf Hs; simpl.
  - split; [done|]. intros k. by rewrite app_nil_r.
  - destruct (IH (insert_by gt x acc)) as [H1 H2].
    + intros i Hi. apply elem_of_app in Hi as [Hi|Hi]; [apply Hf; set_solver|].
      apply insert_by_elem in Hi as [->|Hi]; apply Hf; set_solver.
    + apply insert_sorted; [|done]. intros i Hi. apply Hf. set_solver.
    + split; [done|]. intros k. rewrite H2, insert_filter.
      * rewrite <- app_assoc. f_equal. destruct (same_key (key x) k) eqn:Px.
        -- rewrite !filter_cons_True by done. by rewrite filter_nil.
        -- rewrite !filter_cons_False by (cbv beta; rewrite Px; done). by rewrite filter_nil.
      * intros i Hi. apply Hf. set_solver.
      * done.
Qed.

End Sort.

(** X4. [_sortIndices]: when every centroid coordinate on [axis] is finite,
    the result is a permutation of the indices sorted by that coordinate,
    and indices with equal coordinates keep their relative order (the sort
    is stable). *)
Theorem sortIndices_sorted_stable (tris : list Triangle) (xs : list nat) (axis : nat) :
  (forall i, i ∈ xs -> exists q, ckey tris axis i = Fin q) ->
  sortIndices tris xs axis ≡ₚ xs /\
  Sorted (fun i j => nle (ckey tris axis i) (ckey tris axis j) = true) (sortIndices tris xs axis) /\
  (forall k, filter (fun i => same_key (ckey tris axis i) k = true) (sortIndices tris xs axis) =
             filter (fun i => same_key (ckey tris axis i) k = true) xs).
Proof.
  intros Hf. split; [apply sortIndices_perm|].
  destruct (fold_insert_spec tris axis xs []) as [H1 H2].
  - rewrite app_nil_r. exact Hf.
  - constructor.
  - split; [exact H1|]. intros k. unfold sortIndices. rewrite H2. done.
Qed.

Lemma leaf_tris_serial tris t p :
  leaf_tris tris (serial t p) = omap (fun k => tris !! k) (leaf_indices t).
Proof.
  revert p. induction t as [n|n l IHl r IHr]; intros p; unfold leaf_tris in *; simpl.
  - by rewrite app_nil_r.
  - rewrite map_app, concat_app, IHl, IHr. by rewrite omap_app.
Qed.

Lemma omap_map_S {A} (f : nat -> option A) (s : list nat) :
  omap f (map S s) = omap (fun i => f (S i)) s.
Proof. induction s as [|i s IH]; csimpl; [done|]. destruct (f (S i)); by rewrite IH. Qed.

Lemma omap_lookup_seq {A} (l : list A) : omap (fun k => l !! k) (seq 0 (length l)) = l.
Proof.
  induction l as [|x l IH]; [done|]. cbn [length seq omap lookup list_lookup].
  simpl. rewrite <- seq_shift, omap_map_S. simpl. by rewrite IH.
Qed.

Lemma omap_Permutation' {A B} (f : A -> option B) (l1 l2 : list A) :
  l1 ≡ₚ l2 -> omap f l1 ≡ₚ omap f l2.
Proof.
  induction 1 as [|x l1 l2 _ IH|x y l|l1 l2 l3 _ IH1 _ IH2]; simpl.
  - done.
  - destruct (f x); by rewrite IH.
  - destruct (f x), (f y); try done. apply perm_swap.
  - by rewrite IH1.
Qed.

Lemma length_emit tris rs c : length (emit tris rs c) = 9 * length rs.
Proof.
  revert c. induction rs as [|e rs IH]; intros c; cbn [emit length]; [done|].
  rewrite length_app, length_bufferNode_at, IH. lia.
Qed.

Lemma new_BVH_leaf_indices tris maxTris t d :
  new_BVH tris maxTris = Ok (t, d) -> leaf_indices t ≡ₚ seq 0 (length tris).
Proof.
  unfold new_BVH. intros H.
  destruct (buildTree_inv _ _ _ _ _ _ _ _ (new_BVH_idx_inv tris) H) as (_ & _ & Hl).
  rewrite Hl. simpl. apply sortIndices_perm.
Qed.

(** X5. The packing loop of [initBVH] over [serializeTree()] of a built BVH:
    [bvhBuffer] holds 9 cells per node and [trianglesBuffer] the 9
    coordinates of each leaf triangle, leaf by leaf; the leaves' triangles
    are a permutation of the scene's triangles, so each one is packed
    exactly once. *)
Theorem pack_new_BVH (tris : list Triangle) (maxTris : nat) (t : tree) (d : nat) :
  new_BVH tris maxTris = Ok (t, d) ->
  length (fst (pack tris (serializeTree t))) = 9 * tsize t /\
  snd (pack tris (serializeTree t)) =
    concat (map tri_cells (omap (fun k => tris !! k) (leaf_indices t))) /\
  omap (fun k => tris !! k) (leaf_indices t) ≡ₚ tris.
Proof.
  intros H. rewrite serializeTree_serial, pack_eq. simpl.
  rewrite length_emit, length_serial, leaf_tris_serial.
  split; [done|]. split; [done|].
  rewrite (new_BVH_leaf_indices _ _ _ _ H), omap_lookup_seq. done.
Qed.

Lemma pack_new_BVH_witness :
  exists t d, new_BVH tris3 1 = Ok (t, d) /\ tsize t = 5 /\
    length (fst (pack tris3 (serializeTree t))) = 9 * tsize t /\
    snd (pack tris3 (serializeTree t)) =
      concat (map tri_cells (omap (fun k => tris3 !! k) (leaf_indices t))) /\
    omap (fun k => tris3 !! k) (leaf_indices t) ≡ₚ tris3.
Proof.
  destruct (new_BVH tris3 1) as [[t d]| |] eqn:E;
    [|vm_compute in E; discriminate..].
  exists t, d. split; [reflexivity|]. split.
  - vm_compute in E. injection E as <- _. reflexivity.
  - exact (pack_new_BVH tris3 1 t d E).
Defined.

(** X3. [new BVH], [buildTree]: the recorded [depth] is the height of the
    tree; every leaf holds at most [maxTris] indices on each axis and every
    inner node more than [maxTris]. *)
Theorem new_BVH_depth_leaves (tris : list Triangle) (maxTris : nat) (t : tree) (d : nat) :
  new_BVH tris maxTris = Ok (t, d) ->
  d = height t /\
  all_leaves (fun n => forall b, b < 3 -> length (nth b (n_indices n) []) <= maxTris) t /\
  all_inner (fun n _ _ => forall b, b < 3 -> maxTris < length (nth b (n_indices n) [])) t.
Proof. intros H. destruct (new_BVH_shape _ _ _ _ H) as (D & _ & L & I). done. Qed.

Lemma all_verts_tris3 : all_verts tris3.
Proof. repeat constructor; eexists _, _, _; reflexivity. Qed.

Lemma new_BVH_depth_leaves_witness :
  exists t d, new_BVH tris3 1 = Ok (t, d) /\ d = 2 /\
  d = height t /\
  all_leaves (fun n => forall b, b < 3 -> length (nth b (n_indices n) []) <= 1) t /\
  all_inner (fun n _ _ => forall b, b < 3 -> 1 < length (nth b (n_indices n) [])) t.
Proof.
  destruct (new_BVH tris3 1) as [[t d]| |] eqn:E;
    [|vm_compute in E; discriminate..].
  exists t, d. split; [reflexivity|]. split.
  - vm_compute in E. injection E as _ <-. reflexivity.
  - exact (new_BVH_depth_leaves tris3 1 t d E).
Defined.

Lemma new_BVH_boxes_witness :
  exists t d, all_verts tris3 /\ new_BVH tris3 1 = Ok (t, d) /\
  all_nodes (fun n => n_box n = addNode tris3 (n_indices n) /\
               forall v, v ∈ node_verts tris3 (n_indices n) -> in_box (n_box n) v) t /\
  all_inner (fun n l r => box_le (n_box (t_node l)) (n_box n) /\
                          box_le (n_box (t_node r)) (n_box n)) t.
Proof.
  destruct (new_BVH tris3 1) as [[t d]| |] eqn:E;
    [|vm_compute in E; discriminate..].
  exists t, d. split; [exact all_verts_tris3|]. split; [reflexivity|].
  exact (new_BVH_boxes tris3 1 t d all_verts_tris3 E).
Defined.

Lemma addNode_bounds_witness :
  all_verts tris3 /\ node_verts tris3 [[0; 2]; [0; 2]; [0; 2]] <> [] /\
  (forall v, v ∈ node_verts tris3 [[0; 2]; [0; 2]; [0; 2]] ->
     in_box (addNode tris3 [[0; 2]; [0; 2]; [0; 2]]) v) /\
  (node_verts tris3 [[0; 2]; [0; 2]; [0; 2]] = [] ->
     addNode tris3 [[0; 2]; [0; 2]; [0; 2]] = emptyBox) /\
  (node_verts tris3 [[0; 2]; [0; 2]; [0; 2]] <> [] -> forall a, a < 3 ->
     (exists v, v ∈ node_verts tris3 [[0; 2]; [0; 2]; [0; 2]] /\
        vget (bmin (addNode tris3 [[0; 2]; [0; 2]; [0; 2]])) a = vget v a) /\
     (exists v, v ∈ node_verts tris3 [[0; 2]; [0; 2]; [0; 2]] /\
        vget (bmax (addNode tris3 [[0; 2]; [0; 2]; [0; 2]])) a = vget v a)).
Proof.
  split; [exact all_verts_tris3|]. split; [vm_compute; discriminate|].
  exact (addNode_bounds tris3 [[0; 2]; [0; 2]; [0; 2]] all_verts_tris3).
Defined.

Lemma sortIndices_sorted_stable_witness :
  (forall i, i ∈ seq 0 3 -> exists q, ckey tris3 0 i = Fin q) /\
  sortIndices tris3 (seq 0 3) 0 = [1; 2; 0] /\
  (sortIndices tris3 (seq 0 3) 0 ≡ₚ seq 0 3 /\
   Sorted (fun i j => nle (ckey tris3 0 i) (ckey tris3 0 j) = true) (sortIndices tris3 (seq 0 3) 0) /\
   (forall k, filter (fun i => same_key (ckey tris3 0 i) k = true) (sortIndices tris3 (seq 0 3) 0) =
              filter (fun i => same_key (ckey tris3 0 i) k = true) (seq 0 3))).
Proof.
  assert (Hf : forall i, i ∈ seq 0 3 -> exists q, ckey tris3 0 i = Fin q).
  { intros i Hi. apply list_elem_of_In, in_seq in Hi.
    destruct i as [|[|[|i]]]; [..|lia]; eexists; vm_compute; reflexivity. }
  split; [exact Hf|]. split; [vm_compute; reflexivity|].
  exact (sortIndices_sorted_stable tris3 (seq 0 3) 0 Hf).
Defined.

Lemma fold_insert_lookup {A} (g : nat -> A) (ps : list nat) (m : list A) k :
  fold_left (fun m p => <[p := g p]> m) ps m !! k =
    if bool_decide (k ∈ ps /\ k < length m) then Some (g k) else m !! k.
Proof.
  revert m. induction ps as [|p ps IH]; intros m; cbn [fold_left].
  - rewrite bool_decide_false; [done|]. intros [H _]. by apply elem_of_nil in H.
  - rewrite IH, length_insert.
    destruct (decide (k = p)) as [->|Hne].
    + destruct (decide (p < length m)).
      * rewrite list_lookup_insert_eq by done.
        rewrite (bool_decide_true (p ∈ p :: ps /\ p < length m)) by (split; [set_solver|done]).
        by case_bool_decide.
      * rewrite list_insert_ge by lia.
        rewrite !bool_decide_false by (intros [_ ?]; lia). done.
    + rewrite list_lookup_insert_ne by done.
      rewrite (bool_decide_ext (k ∈ p :: ps /\ k < length m) (k ∈ ps /\ k < length m)); [done|set_solver].
Qed.

Lemma fold_insert_length {A} (g : nat -> A) (ps : list nat) (m : list A) :
  length (fold_left (fun m p => <[p := g p]> m) ps m) = length m.
Proof. revert m. induction ps as [|p ps IH]; intros m; simpl; [done|]. by rewrite IH, length_insert. Qed.

Lemma maskBVHBuffer_flat B :
  maskBVHBuffer B =
    fold_left (fun m p => <[p := F32 (nth p B JUndefined)]> m)
      (concat (map (fun i => map (fun j => i + j) (seq 3 6))
                   (map (fun q => 9 * q) (seq 0 ((length B + 8) / 9)))))
      (map (fun v => Bits (ToInt32 v)) B).
Proof.
  unfold maskBVHBuffer.
  generalize (map (fun v => Bits (ToInt32 v)) B).
  induction (map (fun q => 9 * q) (seq 0 ((length B + 8) / 9))) as [|i is IH]; intros m; [done|].
  cbn [fold_left map concat]. rewrite fold_left_app, <- IH. reflexivity.
Qed.

Lemma mask_positions n k :
  k ∈ concat (map (fun i => map (fun j => i + j) (seq 3 6))
                  (map (fun q => 9 * q) (seq 0 n))) <->
  3 <= k mod 9 /\ k / 9 < n.
Proof.
  rewrite list_elem_of_In, in_concat. split.
  - intros (l & Hl & Hk). apply in_map_iff in Hl as (i & <- & Hi).
    apply in_map_iff in Hi as (q & <- & Hq). apply in_seq in Hq.
    apply in_map_iff in Hk as (j & <- & Hj). apply in_seq in Hj.
    rewrite Nat.mul_comm, Nat.add_comm, Nat.Div0.mod_add, Nat.div_add by lia.
    rewrite Nat.mod_small, Nat.div_small by lia. lia.
  - intros [H1 H2]. exists (map (fun j => 9 * (k / 9) + j) (seq 3 6)). split.
    + apply in_map_iff. exists (9 * (k / 9)). split; [done|].
      apply in_map_iff. exists (k / 9). split; [done|]. apply in_seq. lia.
    + apply in_map_iff. exists (k mod 9). split; [symmetry; apply Nat.div_mod; lia|].
      apply in_seq. pose proof (Nat.mod_upper_bound k 9). lia.
Qed.

(** X6. [maskBVHBuffer]: the result is as long as the buffer; cell [k] keeps
    the value as a float when [k mod 9 >= 3] (the box coordinates) and holds
    the Int32 bits of the value otherwise (left, right and triangle index). *)
Theorem maskBVHBuffer_cells (B : list jsval) :
  length (maskBVHBuffer B) = length B /\
  forall k v, B !! k = Some v ->
    maskBVHBuffer B !! k = Some (if decide (3 <= k mod 9) then F32 v else Bits (ToInt32 v)).
Proof.
  rewrite maskBVHBuffer_flat. split.
  - by rewrite fold_insert_length, length_map.
  - intros k v Hk. rewrite fold_insert_lookup, length_map.
    assert (Hlt : k < length B) by (by apply lookup_lt_Some in Hk).
    destruct (decide (3 <= k mod 9)) as [H3|H3].
    + rewrite bool_decide_true.
      * by rewrite (nth_lookup_Some _ _ _ _ Hk).
      * split; [|done]. apply mask_positions. split; [done|].
        assert (k / 9 + 1 <= (length B + 8) / 9); [|lia].
        replace (k / 9 + 1) with ((k + 1 * 9) / 9) by (rewrite Nat.div_add; lia).
        apply Nat.Div0.div_le_mono. lia.
    + rewrite bool_decide_false.
      * by rewrite lookup_map', Hk.
      * rewrite mask_positions. lia.
Qed.

(** X7. The Int32 conversion of [new Int32Array(bvhBuffer)] in
    [maskBVHBuffer] always gives a value in [[-2^31, 2^31)], and leaves an
    integer already in that range unchanged. *)
Theorem ToInt32_range (v : jsval) :
  (- 2 ^ 31 <= ToInt32 v < 2 ^ 31)%Z /\
  forall z, (- 2 ^ 31 <= z < 2 ^ 31)%Z -> ToInt32 (JNum (Fin (inject_Z z))) = z.
Proof.
  split.
  - destruct v as [|[q| | |]]; cbn [ToInt32]; try lia.
    set (m := ((Z.quot (Qnum q) (Zpos (Qden q))) mod 2 ^ 32)%Z).
    assert (0 <= m < 2 ^ 32)%Z by (apply Z.mod_pos_bound; lia).
    destruct (Z.leb_spec (2 ^ 31) m); lia.
  - intros z Hz. cbn [ToInt32 inject_Z Qnum Qden]. rewrite Z.quot_1_r.
    destruct (Z.leb_spec 0 z).
    + rewrite Z.mod_small by lia. destruct (Z.leb_spec (2 ^ 31) z); lia.
    + replace (z mod 2 ^ 32)%Z with (z + 2 ^ 32)%Z.
      * destruct (Z.leb_spec (2 ^ 31) (z + 2 ^ 32)); lia.
      * apply (Z.mod_unique _ _ (-1)); lia.
Qed.

Lemma Qceiling_eq q q' : (q == q')%Q -> Qceiling q = Qceiling q'.
Proof.
  intros H. apply Z.le_antisymm; apply Qceiling_resp_le; rewrite H; apply Qle_refl.
Qed.

Lemma Qceiling_frac (a : Z) (b : positive) :
  (Zpos b * (Qceiling (a # b) - 1) < a <= Zpos b * Qceiling (a # b))%Z.
Proof.
  pose proof (Qle_ceiling (a # b)) as H1. pose proof (Qceiling_lt (a # b)) as H2.
  unfold Qle, Qlt in *. simpl in *. lia.
Qed.

Lemma Qred_mul_Z a b : Qred (inject_Z a * inject_Z b) = inject_Z (a * b).
Proof. change (inject_Z a * inject_Z b)%Q with (inject_Z (a * b)%Z). apply Qred_inject_Z. Qed.

Lemma Qred_mul_Z_nmul a b : nmul (Fin (inject_Z a)) (Fin (inject_Z b)) = Fin (inject_Z (a * b)).
Proof. unfold nmul. by rewrite Qred_mul_Z. Qed.

Lemma qsign_pos z : (0 < z)%Z -> qsign (inject_Z z) = Gt.
Proof. intros H. destruct z; simpl; [lia|done|lia]. Qed.

Lemma Z_of_pos_ex z : (0 < z)%Z -> exists p, z = Zpos p.
Proof. intros H. exists (Z.to_pos z). lia. Qed.

Lemma ceil_sqrt_spec n : (0 < n)%Z ->
  (1 <= ceil_sqrt n /\ n <= ceil_sqrt n * ceil_sqrt n /\
   (ceil_sqrt n - 1) * (ceil_sqrt n - 1) <= n - 1)%Z.
Proof.
  intros Hn. unfold ceil_sqrt. destruct (Z.leb_spec n 0); [lia|].
  pose proof (Z.sqrt_spec (n - 1) ltac:(lia)) as [H1 H2].
  pose proof (Z.sqrt_nonneg (n - 1)). nia.
Qed.

Lemma ceil_div_spec s p : (0 < p)%Z -> (0 < s)%Z ->
  (1 <= (s + p - 1) / p /\ s <= (s + p - 1) / p * p /\ ((s + p - 1) / p - 1) * p <= s - 1)%Z.
Proof.
  intros Hp Hs. pose proof (Z.div_mod (s + p - 1) p ltac:(lia)) as E.
  pose proof (Z.mod_pos_bound (s + p - 1) p Hp) as B.
  set (k := ((s + p - 1) / p)%Z) in *. set (r := ((s + p - 1) mod p)%Z) in *. nia.
Qed.

(** X8. [padBuffer] on a non-empty buffer appends [n] copies of -1 and
    returns [[width, height]] with [channels * width * height = length + n].
    [width] is the least multiple of [perElement] whose square (times
    [channels]) holds the buffer, [0 < height <= width], and the padding is
    less than one row. *)
Theorem padBuffer_shape {A} (minus1 : A) (buffer : list A) (pe c : positive) :
  buffer <> [] ->
  exists (n : nat) (W H : Z),
    padBuffer minus1 buffer pe c =
      Some (buffer ++ repeat minus1 n, (Fin (inject_Z W), Fin (inject_Z H))) /\
    (Zpos c * W * H = Z.of_nat (length buffer) + Z.of_nat n)%Z /\
    (Zpos pe | W)%Z /\ (0 < H <= W)%Z /\ (Z.of_nat n < Zpos c * W)%Z /\
    (Z.of_nat (length buffer) <= Zpos c * W * W)%Z /\
    (Zpos c * (W - Zpos pe) * (W - Zpos pe) < Z.of_nat (length buffer))%Z.
Proof.
  intros Hne. set (L := Z.of_nat (length buffer)).
  assert (HL : (0 < L)%Z) by (destruct buffer; [done|simpl in L; lia]).
  set (x := Qred (inject_Z L / inject_Z (Zpos c))).
  assert (Hx : (x == L # c)%Q).
  { unfold x. rewrite Qred_correct. unfold Qeq, Qdiv, Qmult, Qinv, inject_Z. simpl. lia. }
  set (N := Qceiling x).
  assert (HN : (Zpos c * (N - 1) < L <= Zpos c * N)%Z).
  { unfold N. rewrite (Qceiling_eq _ _ Hx). apply Qceiling_frac. }
  set (s := ceil_sqrt N).
  destruct (ceil_sqrt_spec N ltac:(nia)) as (Hs1 & Hs2 & Hs3). fold s in Hs1, Hs2, Hs3.
  set (k := ceil_sqrt_div x (Zpos pe)).
  destruct (ceil_div_spec s (Zpos pe) ltac:(lia) ltac:(lia)) as (Hk1 & Hk2 & Hk3).
  change ((s + Zpos pe - 1) / Zpos pe)%Z with k in Hk1, Hk2, Hk3.
  set (W := (k * Zpos pe)%Z).
  assert (HW : (0 < W)%Z) by (unfold W; lia).
  destruct (Z_of_pos_ex W HW) as [Wp EW].
  set (H := Qceiling (Qred (x / inject_Z W))).
  assert (HH : (Zpos (c * Wp) * (H - 1) < L <= Zpos (c * Wp) * H)%Z).
  { unfold H. rewrite (Qceiling_eq _ (L # (c * Wp))); [apply Qceiling_frac|].
    rewrite Qred_correct, Hx, EW. unfold Qeq, Qdiv, Qmult, Qinv, inject_Z. simpl. lia. }
  rewrite Pos2Z.inj_mul, <- EW in HH.
  set (n := Z.to_nat (Zpos c * W * H - L)).
  assert (Hn : Z.of_nat n = (Zpos c * W * H - L)%Z) by (unfold n; rewrite Z2Nat.id; nia).
  exists n, W, H.
  assert (Hpad : padBuffer minus1 buffer pe c =
                   Some (buffer ++ repeat minus1 n, (Fin (inject_Z W), Fin (inject_Z H)))).
  { unfold padBuffer.
    assert (E1 : ndiv (nnat (length buffer)) (Fin (inject_Z (Zpos c))) = Fin x) by reflexivity.
    rewrite E1. fold k. rewrite (Qred_mul_Z_nmul k (Zpos pe)). fold W.
    unfold ndiv at 1. rewrite (qsign_pos W HW). cbn [nceil]. fold H.
    rewrite Qred_mul_Z_nmul, Qred_mul_Z_nmul.
    unfold nsub, nnat. cbn [nneg nadd loop_count]. fold L.
    rewrite (Qceiling_eq _ (inject_Z (Zpos c * W * H - L))).
    - rewrite Qceiling_Z. fold n. cbn [ndiv]. rewrite (qsign_pos W HW). reflexivity.
    - rewrite Qred_correct, Qred_correct. unfold Qeq, inject_Z. simpl. lia. }
  split; [exact Hpad|].
  assert (Hsq : (L <= Zpos c * W * W)%Z).
  { assert (s * s <= W * W)%Z by (unfold W; nia). nia. }
  assert (Hlo : (Zpos c * (W - Zpos pe) * (W - Zpos pe) < L)%Z).
  { assert (0 <= W - Zpos pe <= s - 1)%Z by (unfold W; nia).
    assert ((W - Zpos pe) * (W - Zpos pe) <= (s - 1) * (s - 1))%Z by nia. nia. }
  split; [lia|]. split; [exists k; done|].
  assert (0 < H)%Z by nia. assert (H <= W)%Z by nia.
  split; [lia|]. split; [nia|]. done.
Qed.

(** X9. [padBuffer] on an empty buffer appends nothing and returns width 0
    and height NaN ([0 / 0]). *)
Theorem padBuffer_empty {A} (minus1 : A) (pe c : positive) :
  padBuffer minus1 [] pe c = Some ([], (Fin 0, NaN)).
Proof.
  unfold padBuffer.
  assert (E1 : ndiv (nnat (length (@nil A))) (Fin (inject_Z (Zpos c))) = Fin 0) by reflexivity.
  rewrite E1.
  assert (E2 : ceil_sqrt_div 0 (Zpos pe) = 0%Z).
  { unfold ceil_sqrt_div. change (ceil_sqrt (Qceiling 0)) with 0%Z.
    apply Z.div_small. lia. }
  rewrite E2. reflexivity.
Qed.

Lemma ndiv9_nnat c : ndiv (nnat (9 * c)) (Fin 9) = nnat c.
Proof.
  unfold nnat, ndiv. change (qsign 9) with Gt. cbv iota.
  f_equal. rewrite <- (Qred_inject_Z (Z.of_nat c)).
  apply Qred_complete. unfold Qeq, Qdiv, Qmult, Qinv, inject_Z. simpl. lia.
Qed.

Lemma lightLoop_fold lights R B c :
  length B = 9 * c ->
  fold_left
    (fun '(lightRanges, lightBuffer) group =>
       let lightRanges := lightRanges ++ [ndiv (nnat (length lightBuffer)) (Fin 9)] in
       let lightBuffer := lightBuffer ++ concat (map tri_cells group) in
       (lightRanges ++ [nsub (ndiv (nnat (length lightBuffer)) (Fin 9)) (Fin 1)], lightBuffer))
    lights (R, B) =
  (R ++ concat (map (fun i => [nnat (c + sum_list (map length (take i lights)));
                               nsub (nnat (c + sum_list (map length (take (S i) lights)))) (Fin 1)])
                    (seq 0 (length lights))),
   B ++ concat (map tri_cells (concat lights))).
Proof.
  revert R B c. induction lights as [|g gs IH]; intros R B c HB; cbn [fold_left].
  - by rewrite !app_nil_r.
  - rewrite HB, ndiv9_nnat.
    rewrite length_app, length_tri_cells, HB, <- Nat.mul_add_distr_l, ndiv9_nnat.
    rewrite (IH _ _ (c + length g)).
    + f_equal.
      * rewrite <- !app_assoc. apply (f_equal (app R)).
        cbn [length seq map concat]. rewrite <- seq_shift, map_map.
        cbn [take map sum_list app]. rewrite !Nat.add_0_r.
        do 2 f_equal.
        f_equal. apply map_ext. intros i. unfold id. by rewrite !Nat.add_assoc.
      * cbn [concat]. by rewrite map_app, concat_app, app_assoc.
    + rewrite length_app, length_tri_cells, HB. lia.
Qed.

Lemma nsub_nnat_1 n : nsub (nnat n) (Fin 1) = Fin (inject_Z (Z.of_nat n - 1)).
Proof.
  unfold nsub, nnat. cbn [nneg nadd]. f_equal.
  rewrite <- (Qred_inject_Z (Z.of_nat n - 1)). apply Qred_complete.
  unfold Qeq, inject_Z. simpl. lia.
Qed.

(** X10. The light loop of [initBVH]: [lightRanges] holds, for each light
    group, the index of its first triangle (the number of triangles of the
    groups before it) and that of its last one (one less than the count up
    to and including it); [lightBuffer] holds the 9 vertex coordinates of
    every light triangle, in order. *)
Theorem lightLoop_ranges (lights : list (list Triangle)) :
  lightLoop lights =
    (concat (map (fun i => [nnat (sum_list (map length (take i lights)));
                            Fin (inject_Z (Z.of_nat (sum_list (map length (take (S i) lights))) - 1))])
                 (seq 0 (length lights))),
     concat (map tri_cells (concat lights))).
Proof.
  unfold lightLoop. rewrite (lightLoop_fold _ [] [] 0) by done. cbn [app].
  f_equal. f_equal. apply map_ext. intros i. by rewrite nsub_nnat_1.
Qed.

Module RenderLoopRuns.
Import RenderLoop RenderLoopAcc.

Ltac rl_red := lazy beta iota zeta delta [andb drawQuad set_counters drawTracer drawCamera
  bindFramebuffer log pingpong dirty moving active resScale bound screens canvas passes].

Lemma tick_trace (m : nat) (f : Z) (n : nat) rs b sc cv ps :
  1 <= m -> n <= m ->
  tick (Some (Z.of_nat m)) f (MkR n false false true rs b sc cv ps) =
  let sc' := <[n mod 2 := (nth ((n + 1) mod 2) sc 0%Z + 1)%Z]> sc in
  let s' := MkR (S n) false false true 1 FbDefault sc' (nth (S n mod 2) sc' 0%Z) (ps ++ tick_passes n) in
  if bool_decide (m <= S n) && Z.leb 0 f then (log s' PUpload, true) else (s', false).
Proof.
  intros Hm Hn.
  assert (E1 : truthy_int (Some (Z.of_nat m)) = true).
  { unfold truthy_int. apply negb_true_iff, Z.eqb_neq. lia. }
  assert (E2 : le_max n (Some (Z.of_nat m)) = true) by (unfold le_max; apply Z.leb_le; lia).
  assert (E3 : ge_max (S n) (Some (Z.of_nat m)) = bool_decide (m <= S n)).
  { unfold ge_max. apply Bool.eq_iff_eq_true. rewrite Z.leb_le, bool_decide_eq_true. lia. }
  unfold tick. cbn [pingpong dirty active moving resScale bound screens canvas passes].
  rewrite E1, E2. rl_red. rewrite E3. unfold tick_passes.
  destruct (bool_decide (m <= S n) && Z.leb 0 f); by rewrite <- !app_assoc.
Qed.

Lemma tick_idle (m : nat) (f : Z) rs b sc cv ps :
  tick (Some (Z.of_nat m)) f (MkR (S m) false false true rs b sc cv ps) =
  let s' := MkR (S m) false false true 1 FbDefault sc (nth (S m mod 2) sc 0%Z) (ps ++ [PQuad (S m)]) in
  if Z.leb 0 f then (log s' PUpload, true) else (s', false).
Proof.
  assert (E2 : le_max (S m) (Some (Z.of_nat m)) = false) by (unfold le_max; apply Z.leb_gt; lia).
  assert (E3 : ge_max (S m) (Some (Z.of_nat m)) = true) by (unfold ge_max; apply Z.leb_le; lia).
  unfold tick. cbn [pingpong dirty active moving resScale bound screens canvas passes].
  rewrite E2, andb_false_r. rl_red. rewrite E3. done.
Qed.

Lemma acc_screens_step n : 1 <= n ->
  <[n mod 2 := (nth ((n + 1) mod 2) (acc_screens n) 0%Z + 1)%Z]> (acc_screens n) = acc_screens (S n) /\
  nth (S n mod 2) (acc_screens (S n)) 0%Z = Z.of_nat n.
Proof.
  intros Hn. unfold acc_screens. rewrite Nat.even_succ, <- Nat.negb_even.
  destruct (Nat.even n) eqn:E; cbn [negb].
  - apply Nat.even_spec in E as [k ->].
    replace (2 * k) with (k * 2) by lia. rewrite Nat.Div0.mod_mul.
    replace ((k * 2 + 1) mod 2) with 1 by (rewrite Nat.add_comm, Nat.Div0.mod_add; done).
    replace (S (k * 2) mod 2) with 1 by (replace (S (k * 2)) with (1 + k * 2) by lia; rewrite Nat.Div0.mod_add; done).
    cbn. split; [f_equal; [lia|f_equal; lia]|lia].
  - assert (Hodd : Nat.odd n = true) by (rewrite <- Nat.negb_even, E; done).
    apply Nat.odd_spec in Hodd as [k ->].
    replace ((2 * k + 1) mod 2) with 1 by (rewrite Nat.add_comm, Nat.mul_comm, Nat.Div0.mod_add; done).
    replace ((2 * k + 1 + 1) mod 2) with 0.
    2:{ replace (2 * k + 1 + 1) with ((k + 1) * 2) by lia. by rewrite Nat.Div0.mod_mul. }
    replace (S (2 * k + 1) mod 2) with 0.
    2:{ replace (S (2 * k + 1)) with ((k + 1) * 2) by lia. by rewrite Nat.Div0.mod_mul. }
    cbn. split; [f_equal; [f_equal; lia|f_equal; lia]|lia].
Qed.

Lemma acc_screens_nth n : 1 <= n ->
  nth ((n + 1) mod 2) (acc_screens n) 0%Z = Z.of_nat n /\
  nth (n mod 2) (acc_screens n) 0%Z = (Z.of_nat n - 1)%Z.
Proof.
  intros Hn. unfold acc_screens. destruct (Nat.even n) eqn:E.
  - apply Nat.even_spec in E as [k ->].
    replace (2 * k) with (k * 2) by lia. rewrite Nat.Div0.mod_mul.
    replace ((k * 2 + 1) mod 2) with 1 by (rewrite Nat.add_comm, Nat.Div0.mod_add; done).
    done.
  - assert (Hodd : Nat.odd n = true) by (rewrite <- Nat.negb_even, E; done).
    apply Nat.odd_spec in Hodd as [k ->].
    replace ((2 * k + 1) mod 2) with 1 by (rewrite Nat.add_comm, Nat.mul_comm, Nat.Div0.mod_add; done).
    replace ((2 * k + 1 + 1) mod 2) with 0.
    2:{ replace (2 * k + 1 + 1) with ((k + 1) * 2) by lia. by rewrite Nat.Div0.mod_mul. }
    done.
Qed.

Lemma tick_acc (m : nat) (f : Z) (n : nat) ps :
  1 <= m -> 1 <= n -> n <= m ->
  tick (Some (Z.of_nat m)) f (acc_state n ps) =
  if bool_decide (m <= S n) && Z.leb 0 f
  then (log (acc_state (S n) (ps ++ tick_passes n)) PUpload, true)
  else (acc_state (S n) (ps ++ tick_passes n), false).
Proof.
  intros Hm Hn1 Hn. unfold acc_state. rewrite tick_trace by done.
  destruct (acc_screens_step n Hn1) as [E1 E2]. cbv zeta. rewrite E1, E2.
  replace (Z.of_nat (S n) - 1)%Z with (Z.of_nat n) by lia. done.
Qed.

Lemma run_acc (m : nat) (f : Z) j n ps :
  1 <= m -> 1 <= n -> n + j <= S m -> ((f < 0)%Z \/ n + j < m) ->
  run j (Some (Z.of_nat m)) f (acc_state n ps) =
    (acc_state (n + j) (ps ++ concat (map tick_passes (seq n j))), false).
Proof.
  revert n ps. induction j as [|j IH]; intros n ps Hm Hn Hj Hf.
  - cbn. by rewrite Nat.add_0_r, app_nil_r.
  - cbn [run]. rewrite tick_acc by lia.
    rewrite (proj2 (andb_false_iff _ _)).
    2:{ destruct Hf as [Hf|Hf]; [right; apply Z.leb_gt; lia|left; apply bool_decide_eq_false; lia]. }
    rewrite IH by lia. cbn [seq map concat].
    by rewrite Nat.add_succ_r, <- Nat.add_succ_l, <- app_assoc.
Qed.

Lemma run_idle (m : nat) (f : Z) j ps :
  (f < 0)%Z ->
  run j (Some (Z.of_nat m)) f (acc_state (S m) ps) =
    (acc_state (S m) (ps ++ repeat (PQuad (S m)) j), false).
Proof.
  intros Hf. revert ps. induction j as [|j IH]; intros ps.
  - cbn. by rewrite app_nil_r.
  - cbn [run]. unfold acc_state at 1. rewrite tick_idle.
    rewrite (proj2 (Z.leb_gt 0 f) Hf). cbv zeta.
    destruct (acc_screens_nth (S m)) as [_ E2]; [lia|]. rewrite E2.
    fold (acc_state (S m) (ps ++ [PQuad (S m)])). rewrite IH.
    by rewrite <- app_assoc.
Qed.

Lemma tick_init (m : nat) (f : Z) :
  1 <= m ->
  tick (Some (Z.of_nat m)) f (init true) =
    (MkR 0 false false true 1 FbDefault [0%Z; 0%Z] 0%Z (tick_passes 0), false).
Proof.
  intros Hm.
  assert (E1 : truthy_int (Some (Z.of_nat m)) = true).
  { unfold truthy_int. apply negb_true_iff, Z.eqb_neq. lia. }
  assert (E2 : le_max 0 (Some (Z.of_nat m)) = true) by (unfold le_max; apply Z.leb_le; lia).
  assert (E3 : ge_max 0 (Some (Z.of_nat m)) = false) by (unfold ge_max; apply Z.leb_gt; lia).
  unfold tick, init. cbn [pingpong dirty active moving resScale bound screens canvas passes].
  rewrite E1, E2. revert E3. generalize (Some (Z.of_nat m)) as M. intros M E3. lazy -[ge_max]. rewrite E3. done.
Qed.

Lemma tick_first (m : nat) (f : Z) :
  1 <= m ->
  tick (Some (Z.of_nat m)) f (MkR 0 false false true 1 FbDefault [0%Z; 0%Z] 0%Z (tick_passes 0)) =
  if bool_decide (m <= 1) && Z.leb 0 f
  then (log (acc_state 1 (tick_passes 0 ++ tick_passes 0)) PUpload, true)
  else (acc_state 1 (tick_passes 0 ++ tick_passes 0), false).
Proof. intros Hm. rewrite tick_trace by lia. done. Qed.

Lemma run_add a b mx f s :
  run (a + b) mx f s =
    let '(s', stop) := run a mx f s in if stop then (s', true) else run b mx f s'.
Proof.
  revert s. induction a as [|a IH]; intros s; [done|].
  cbn [Nat.add run]. destruct (tick mx f s) as [s1 st]. destruct st; [done|]. apply IH.
Qed.

Lemma run_from_init_acc (m : nat) (f : Z) (n : nat) :
  1 <= m -> 1 <= n -> n <= S m -> ((f < 0)%Z \/ n < m) ->
  run (S n) (Some (Z.of_nat m)) f (init true) =
    (acc_state n (tick_passes 0 ++ concat (map tick_passes (seq 0 n))), false).
Proof.
  intros Hm Hn1 Hn Hf. cbn [run]. rewrite tick_init by done.
  destruct n as [|n]; [lia|]. cbn [run]. rewrite tick_first by done.
  rewrite (proj2 (andb_false_iff _ _)).
  2:{ destruct Hf as [Hf|Hf]; [right; apply Z.leb_gt; lia|left; apply bool_decide_eq_false; lia]. }
  rewrite run_acc by lia. cbn [seq map concat]. rewrite <- seq_shift, map_map.
  by rewrite <- app_assoc.
Qed.

(** X11. [tick] with [maxSamples = m >= 1], from the first frame ([pingpong
    = 0], [dirty]): after [n + 1] ticks, [1 <= n <= m + 1], with no upload
    yet, [pingpong = n]; the accumulator written last holds [n] samples and
    the other [n - 1]; the canvas shows the [n - 1]-sample buffer; the
    passes are those of the first tick, whose sample is cleared, then a
    camera, tracer and quad pass per sample. *)
Theorem run_display_lag (m : nat) (f : Z) (n : nat) :
  1 <= m -> 1 <= n -> n <= S m -> ((f < 0)%Z \/ n < m) ->
  let r := run (S n) (Some (Z.of_nat m)) f (init true) in
  snd r = false /\ pingpong (fst r) = n /\
  nth ((n + 1) mod 2) (screens (fst r)) 0%Z = Z.of_nat n /\
  nth (n mod 2) (screens (fst r)) 0%Z = (Z.of_nat n - 1)%Z /\
  canvas (fst r) = (Z.of_nat n - 1)%Z /\
  passes (fst r) = tick_passes 0 ++ concat (map tick_passes (seq 0 n)).
Proof.
  intros Hm Hn1 Hn Hf r. unfold r. rewrite run_from_init_acc by done.
  destruct (acc_screens_nth n Hn1) as [E1 E2]. cbn. done.
Qed.

(** X12. [tick] with [maxSamples = m >= 1] and no upload ([frameNumber <
    0]): after [m + 2 + j] ticks [pingpong] stays at [m + 1], the
    accumulator written last holds [m + 1] samples, the canvas shows [m],
    and each tick past the last sample only draws the quad of buffer [m +
    1]. *)
Theorem run_saturates (m : nat) (f : Z) (j : nat) :
  1 <= m -> (f < 0)%Z ->
  let r := run (S (S m) + j) (Some (Z.of_nat m)) f (init true) in
  snd r = false /\ pingpong (fst r) = S m /\
  nth (m mod 2) (screens (fst r)) 0%Z = Z.of_nat (S m) /\
  canvas (fst r) = Z.of_nat m /\
  passes (fst r) =
    tick_passes 0 ++ concat (map tick_passes (seq 0 (S m))) ++ repeat (PQuad (S m)) j.
Proof.
  intros Hm Hf r. unfold r. rewrite run_add, run_from_init_acc by lia.
  rewrite run_idle by done.
  destruct (acc_screens_nth (S m)) as [E1 _]; [lia|].
  replace ((S m + 1) mod 2) with (m mod 2) in E1.
  2:{ replace (S m + 1) with (m + 1 * 2) by lia. by rewrite Nat.Div0.mod_add. }
  cbn -[Nat.modulo]. split_and!; first [done | lia | by rewrite app_assoc].
Qed.

(** X13. [tick] with [maxSamples = m >= 1] and [frameNumber >= 0]: the loop
    uploads at tick [m + 1] and not before, with [pingpong = m]; the canvas
    it uploads shows the [m - 1]-sample buffer, and the upload is the last
    pass. *)
Theorem run_upload_canvas (m : nat) (f : Z) :
  1 <= m -> (0 <= f)%Z ->
  let r := run (S m) (Some (Z.of_nat m)) f (init true) in
  snd r = true /\ pingpong (fst r) = m /\ canvas (fst r) = (Z.of_nat m - 1)%Z /\
  passes (fst r) = tick_passes 0 ++ concat (map tick_passes (seq 0 m)) ++ [PUpload] /\
  forall k, k <= m -> snd (run k (Some (Z.of_nat m)) f (init true)) = false.
Proof.
  intros Hm Hf r.
  assert (Hbefore : forall k, k <= m -> snd (run k (Some (Z.of_nat m)) f (init true)) = false).
  { intros [|[|k]] Hk; [done| |].
    - cbn [run]. by rewrite tick_init.
    - rewrite run_from_init_acc by lia. done. }
  assert (Hr : r = (log (acc_state m (tick_passes 0 ++ concat (map tick_passes (seq 0 m)))) PUpload, true)).
  { unfold r. destruct (decide (m = 1)) as [->|Hm1].
    - cbn [run]. rewrite tick_init by lia. cbn [run].
      rewrite tick_first by lia. rewrite bool_decide_true by lia.
      rewrite (proj2 (Z.leb_le 0 f) Hf). done.
    - replace (S m) with (m + 1) by lia. rewrite run_add.
      destruct m as [|m']; [lia|].
      rewrite run_from_init_acc by lia. cbn [run]. rewrite tick_acc by lia.
      rewrite bool_decide_true by lia. rewrite (proj2 (Z.leb_le 0 f) Hf).
      rewrite seq_S, map_app, concat_app. cbn [map concat]. rewrite app_nil_r.
      by rewrite app_assoc. }
  rewrite Hr. cbn. split_and!; first [done | by rewrite <- !app_assoc].
Qed.

Lemma tick_nodraw mx f d rs b ps :
  (truthy_int mx && le_max 0 mx) = false -> (ge_max 0 mx && Z.leb 0 f) = false ->
  exists b', tick mx f (MkR 0 d false true rs b [0%Z; 0%Z] 0%Z ps) =
               (MkR 0 false false true 1 b' [0%Z; 0%Z] 0%Z (ps ++ [PQuad 0]), false).
Proof.
  intros H1 H2. unfold tick. cbn [pingpong dirty active moving resScale bound screens canvas passes].
  rewrite andb_true_r, H1.
  destruct (ge_max 0 mx) eqn:G, (Z.leb 0 f) eqn:F; try discriminate H2;
    destruct d; lazy -[ge_max Z.leb]; rewrite ?G, ?F; eexists; reflexivity.
Qed.

Lemma run_nodraw mx f k d rs b ps :
  (truthy_int mx && le_max 0 mx) = false -> (ge_max 0 mx && Z.leb 0 f) = false ->
  let r := run k mx f (MkR 0 d false true rs b [0%Z; 0%Z] 0%Z ps) in
  snd r = false /\ pingpong (fst r) = 0 /\ screens (fst r) = [0%Z; 0%Z] /\
  canvas (fst r) = 0%Z /\ passes (fst r) = ps ++ repeat (PQuad 0) k.
Proof.
  intros H1 H2. revert d rs b ps. induction k as [|k IH]; intros d rs b ps.
  - cbn. by rewrite app_nil_r.
  - destruct (tick_nodraw mx f d rs b ps H1 H2) as [b' E].
    cbv zeta. cbn [run]. rewrite E.
    destruct (IH false 1%Q b' (ps ++ [PQuad 0])) as (A & B & C & D & F).
    split_and!; try done. rewrite F. cbn [repeat]. by rewrite <- app_assoc.
Qed.

(** X14. [tick] when [maxSamples] is NaN, or [<= 0] with no upload
    ([frameNumber < 0]): no tick ever traces; over any number of ticks
    [pingpong] stays 0, the accumulators stay empty, and each tick only
    draws the quad of buffer 0. *)
Theorem run_no_budget (mx : option Z) (f : Z) (k : nat) :
  match mx with None => True | Some z => (z <= 0)%Z /\ (f < 0)%Z end ->
  let r := run k mx f (init true) in
  snd r = false /\ pingpong (fst r) = 0 /\ screens (fst r) = [0%Z; 0%Z] /\
  canvas (fst r) = 0%Z /\ passes (fst r) = repeat (PQuad 0) k.
Proof.
  intros Hmx.
  assert (H1 : (truthy_int mx && le_max 0 mx) = false).
  { destruct mx as [z|]; [|done]. destruct Hmx as [Hz _].
    unfold truthy_int, le_max. destruct (Z.eqb_spec z 0); [done|].
    cbn. apply Z.leb_gt. lia. }
  assert (H2 : (ge_max 0 mx && Z.leb 0 f) = false).
  { destruct mx as [z|]; [|done]. destruct Hmx as [_ Hf].
    apply andb_false_iff. right. apply Z.leb_gt. lia. }
  exact (run_nodraw mx f k true 1%Q FbDefault [] H1 H2).
Qed.

(** X15. [tick] with [maxSamples <= 0] and [frameNumber >= 0]: the first
    tick uploads at once a canvas with no sample, after drawing only the
    quad of buffer 0. *)
Theorem nonpositive_max_uploads_at_once (z f : Z) :
  (z <= 0)%Z -> (0 <= f)%Z ->
  let r := run 1 (Some z) f (init true) in
  snd r = true /\ canvas (fst r) = 0%Z /\ passes (fst r) = [PQuad 0; PUpload].
Proof.
  intros Hz Hf.
  assert (H1 : (truthy_int (Some z) && le_max 0 (Some z)) = false).
  { unfold truthy_int, le_max. destruct (Z.eqb_spec z 0); [done|]. cbn. apply Z.leb_gt. lia. }
  assert (H2 : (ge_max 0 (Some z) && Z.leb 0 f) = true).
  { apply andb_true_iff. split; apply Z.leb_le; lia. }
  unfold run, tick, init. cbn [pingpong dirty active moving resScale bound screens canvas passes].
  rewrite andb_true_r, H1. apply andb_true_iff in H2 as [G F].
  lazy -[ge_max Z.leb]. rewrite G, F. done.
Qed.

End RenderLoopRuns.

Module EventsProps.

Import Events.

Lemma size_zero_iff (X : gset string) : size X = 0 <-> X = ∅.
Proof. split; [intros H; apply leibniz_equiv, size_empty_inv, H|intros ->; apply size_empty]. Qed.

Lemma step_inv s e : ev_inv s -> ev_inv (step s e).
Proof.
  intros [Hm Hs]. destruct e as [w| |w|d| | | | |k|k]; cbn [step];
    try (unfold ev_inv; cbn; split; assumption).
  - destruct (mode s); [|split; assumption]. unfold ev_inv; cbn. split; [|set_solver].
    split; [intros _|done]. set_solver.
  - assert (Hinv : ev_inv (let s1 := set_active (set_mode s false) (activeEvents s ∖ {["mouse"]}) in
        if decide (size (activeEvents s1) = 0) then set_moving s1 false else s1)).
    { cbn. destruct (decide (size (activeEvents s ∖ {["mouse"]}) = 0)) as [H0|H0];
        unfold ev_inv; cbn; (split; [|set_solver]); rewrite size_zero_iff in H0.
      - rewrite H0. done.
      - split; [done|]. intros _. apply Hm. set_solver. }
    cbn in Hinv |- *. destruct (Z.eqb w 1); [|exact Hinv].
    destruct Hinv as [H1 H2]. split; done.
  - destruct (decide (k ∈ keySet)); [|split; assumption]. unfold ev_inv; cbn. split; [|set_solver].
    split; [intros _|done]. set_solver.
  - destruct (decide (k ∈ keySet)); [|split; assumption]. cbn.
    destruct (decide (size (activeEvents s ∖ {[k]}) = 0)) as [H0|H0];
      unfold ev_inv; cbn; (split; [|set_solver]); rewrite size_zero_iff in H0.
    + rewrite H0. done.
    + split; [done|]. intros _. apply Hm. set_solver.
Qed.

Lemma run_events_app s es1 es2 : run_events s (es1 ++ es2) = run_events (run_events s es1) es2.
Proof. unfold run_events. apply fold_left_app. Qed.

Lemma Qred_eq_0 q : (q == 0)%Q -> Qred q = 0%Q.
Proof. intros H. rewrite (Qred_complete q 0 H). reflexivity. Qed.

Lemma step_fov_zero s e : fovScale s = Fin 0 -> fovScale (step s e) = Fin 0.
Proof.
  intros H0. destruct e as [| | |d| | | | | |]; cbn [step]; repeat case_match; cbn; try exact H0.
  rewrite H0. unfold ndiv. change (qsign (inject_Z 1200)) with Gt. cbv iota.
  unfold nsub, nmul, nneg, nadd. f_equal. apply Qred_eq_0.
  rewrite !Qred_correct. ring.
Qed.

Lemma run_events_fov_zero s es : fovScale s = Fin 0 -> fovScale (run_events s es) = Fin 0.
Proof.
  revert s. induction es as [|e es IH]; intros s H; [done|].
  cbn [run_events fold_left]. apply IH, step_fov_zero, H.
Qed.

(** X16. [initEvents]: from the state the page starts in ([moving] false, no
    active events), after any sequence of mouse, wheel, input and key
    events [moving] is true exactly when [activeEvents] is non-empty, and
    [activeEvents] only ever holds ["mouse"] and the keys of [keySet]. *)
Theorem events_moving_iff_active (m d : bool) (fov : num) (es : list Event) :
  let s := run_events (MkEv m false d ∅ fov) es in
  (moving s = true <-> activeEvents s ≠ ∅) /\ activeEvents s ⊆ {["mouse"]} ∪ keySet.
Proof.
  cbn zeta. assert (H : ev_inv (MkEv m false d ∅ fov)) by (split; cbn; [done|set_solver]).
  revert H. generalize (MkEv m false d ∅ fov). induction es as [|e es IH]; intros s H; [exact H|].
  cbn [run_events fold_left]. apply IH, step_inv, H.
Qed.

(** X17. [initEvents], mousewheel handler: the update
    [fovScale -= e.wheelDelta / 1200 * fovScale] with a delta of 1200
    sets a finite [fovScale] to 0, and from then on no event of
    [initEvents] moves it away from 0. *)
Theorem wheel_1200_locks_zoom (s : EvState) (q : Q) (es : list Event) :
  fovScale s = Fin q ->
  fovScale (run_events s (MouseWheel 1200 :: es)) = Fin 0.
Proof.
  intros Hq. cbn [run_events fold_left]. apply run_events_fov_zero.
  cbn. rewrite Hq. unfold ndiv. change (qsign (inject_Z 1200)) with Gt. cbv iota.
  unfold nsub, nmul, nneg, nadd. f_equal. apply Qred_eq_0.
  rewrite !Qred_correct. field.
Qed.

End EventsProps.

Lemma string_append_nil_r s : String.append s EmptyString = s.
Proof.
  induction s as [|c s IH]; [reflexivity|].
  change (String c (String.append s EmptyString) = String c s). rewrite IH. reflexivity.
Qed.

Lemma split_nl_ne s : exists w ws, split_nl s = w :: ws.
Proof.
  induction s as [|c s' [w [ws IH]]]; cbn; [eauto|]. rewrite IH.
  destruct (Ascii.eqb c nl); eauto.
Qed.

Lemma join_nl_cons w ws : ws <> [] -> join_nl (w :: ws) = String.append w (String nl (join_nl ws)).
Proof. destruct ws; [done|reflexivity]. Qed.

Lemma join_split_nl s : join_nl (split_nl s) = s.
Proof.
  induction s as [|c s' IH]; [reflexivity|]. cbn [split_nl].
  destruct (split_nl_ne s') as (w & ws & E). rewrite E in IH |- *.
  cbv zeta. destruct (Ascii.eqb c nl) eqn:Ec; cbv iota.
  - apply Ascii.eqb_eq in Ec. subst c. rewrite <- IH. rewrite join_nl_cons by done. reflexivity.
  - destruct ws as [|w' ws].
    + rewrite <- IH. reflexivity.
    + rewrite <- IH. rewrite !join_nl_cons by done. reflexivity.
Qed.

Lemma split_nl_append w t : has_nl w = false ->
  split_nl (String.append w t) =
  match split_nl t with [] => [w] | f :: r => String.append w f :: r end.
Proof.
  induction w as [|c w IH]; intros H; cbn [String.append].
  - destruct (split_nl_ne t) as (f & r & Et). rewrite Et. done.
  - cbn [has_nl] in H. apply orb_false_iff in H as [Hc Hw].
    change (String.append (String c w) t) with (String c (String.append w t)).
    cbn [split_nl]. cbv zeta. rewrite Hc, IH by done.
    destruct (split_nl_ne t) as (f & r & Et). rewrite Et. done.
Qed.

Lemma split_nl_no_nl w : has_nl w = false -> split_nl w = [w].
Proof.
  intros H. rewrite <- (string_append_nil_r w) at 1. rewrite split_nl_append by done.
  cbn. rewrite string_append_nil_r. done.
Qed.

Lemma split_join_nl l : l <> [] -> Forall (fun w => has_nl w = false) l -> split_nl (join_nl l) = l.
Proof.
  induction l as [|w ws IH]; intros Hne Hf; [done|]. inversion Hf as [|? ? Hw Hws]; subst.
  destruct ws as [|w' ws].
  - apply split_nl_no_nl, Hw.
  - rewrite join_nl_cons by done. rewrite split_nl_append by done.
    cbn [split_nl]. rewrite IH by done.
    replace (Ascii.eqb nl nl) with true by (symmetry; apply Ascii.eqb_refl).
    rewrite string_append_nil_r. done.
Qed.

Lemma split_nl_no_nl_all s : Forall (fun w => has_nl w = false) (split_nl s).
Proof.
  induction s as [|c s' IH]; cbn [split_nl]; [by constructor|].
  destruct (Ascii.eqb c nl) eqn:Ec; [by constructor|].
  destruct (split_nl s') as [|w ws]; [constructor; [cbn; rewrite Ec; done|constructor]|].
  inversion IH; subst. constructor; [|done]. cbn. rewrite Ec. done.
Qed.

(** X18. [commitPreprocessor]: when no directive contains a newline, the lines
    of the patched shader are its first line, then the directives one per
    line, then the remaining lines of the shader unchanged; with no
    directives the shader text is left exactly as it was. *)
Theorem commitPreprocessor_lines (shader : string) (preprocDirs : list string) :
  Forall (fun d => has_nl d = false) preprocDirs ->
  (forall first rest, split_nl shader = first :: rest ->
     split_nl (commitPreprocessor shader preprocDirs) = first :: preprocDirs ++ rest) /\
  commitPreprocessor shader [] = shader.
Proof.
  intros Hd. split.
  - intros first rest E. unfold commitPreprocessor, splice1. rewrite E. cbn [take drop app].
    apply split_join_nl; [done|]. pose proof (split_nl_no_nl_all shader) as H. rewrite E in H.
    inversion H; subst. constructor; [done|]. apply Forall_app. done.
  - unfold commitPreprocessor, splice1. rewrite app_nil_l, take_drop. apply join_split_nl.
Qed.

Lemma js_index_nil {A} (x : num) : js_index (@nil A) x = None.
Proof. unfold js_index. destruct x; [|done..]. destruct (_ && _)%bool; done. Qed.

(** X20. [createEnvironmentMapPixels] with fewer than two colour stops: every
    row reads [stops[stopIdx + 1]] outside the array, so [Vec3.lerp] gets
    [undefined]. *)
Theorem env_row_too_few_stops {A} (stops : list A) (i : nat) :
  length stops <= 1 -> snd (fst (env_row stops i)) = None.
Proof.
  intros Hs. destruct stops as [|a [|b l]]; cbn [length] in Hs; [| |lia].
  - apply js_index_nil.
  - unfold env_row. cbn [length]. rewrite nsub_nnat_1. reflexivity.
Qed.

Lemma rti_not_NaN eye dir tri : rayTriangleIntersect eye dir tri <> NaN.
Proof.
  unfold rayTriangleIntersect. repeat case_match; try discriminate.
  all: intros E; rewrite E in *; discriminate.
Qed.

Lemma fold_min_sound (f : Triangle -> num) (l : list Triangle) (acc : num) :
  acc <> NaN -> (forall x, f x <> NaN) ->
  let r := fold_left (fun res x => let tmp := f x in if nlt tmp res then tmp else res) l acc in
  (r = acc \/ exists x, x ∈ l /\ r = f x) /\ nle r acc = true /\ forall x, x ∈ l -> nle r (f x) = true.
Proof.
  intros Hacc Hf. revert acc Hacc. induction l as [|x l IH]; intros acc Hacc; cbn [fold_left].
  - split_and!; [by left|by apply nle_refl|]. intros y Hy. inversion Hy.
  - set (acc' := if nlt (f x) acc then f x else acc).
    assert (Hacc' : acc' <> NaN) by (unfold acc'; destruct (nlt _ _); done).
    destruct (IH acc' Hacc') as (S & Le & All).
    assert (H1 : nle acc' acc = true /\ nle acc' (f x) = true).
    { unfold acc'. destruct (nlt (f x) acc) eqn:E.
      - split; [by apply nlt_nle|by apply nle_refl].
      - split; [by apply nle_refl|]. by apply nlt_false_nle. }
    split_and!.
    + destruct S as [S|(y & Hy & S)].
      * unfold acc' in S. destruct (nlt (f x) acc); [right; exists x; split; [left|]|left]; done.
      * right. exists y. split; [by right|done].
    + eapply nle_trans; [exact Le|apply H1].
    + intros y Hy. apply elem_of_cons in Hy as [->|Hy].
      * eapply nle_trans; [exact Le|apply H1].
      * by apply All.
Qed.

(** X23. [processLeaf]: the distance returned for a leaf is [maxT] or the
    distance of one of its triangles, and is at most [maxT] and at most
    the distance of every triangle of the leaf. *)
Theorem processLeaf_min (tris : list Triangle) (eye dir : vec3) (n : Node) :
  let r := processLeaf tris eye dir n in
  (r = maxT \/ exists tri, tri ∈ getTriangles tris n /\ r = rayTriangleIntersect eye dir tri) /\
  nle r maxT = true /\
  forall tri, tri ∈ getTriangles tris n -> nle r (rayTriangleIntersect eye dir tri) = true.
Proof.
  apply fold_min_sound; [done|]. intros x. apply rti_not_NaN.
Qed.

Lemma tri_hit_not_NaN tris eye dir root v : tri_hit tris eye dir root v -> v <> NaN.
Proof. intros [->|(n & tri & _ & _ & ->)]; [done|apply rti_not_NaN]. Qed.

Lemma tri_hit_sub tris eye dir t t' v :
  (forall n, n ∈ leaf_nodes t -> n ∈ leaf_nodes t') ->
  tri_hit tris eye dir t v -> tri_hit tris eye dir t' v.
Proof.
  intros Hs [H|(n & tri & Hn & Ht & E)]; [by left|right]. exists n, tri. split_and!; auto.
Qed.

Lemma fold_preserve {A B} (f : A -> B -> A) (P : A -> Prop) (l : list B) (a : A) :
  P a -> (forall a b, P a -> P (f a b)) -> P (fold_left f l a).
Proof. intros Ha Hf. revert a Ha. induction l as [|b l IH]; intros a Ha; [done|]. apply IH, Hf, Ha. Qed.

Lemma findTriangles_hit tris eye dir root closest :
  closest <> NaN ->
  findTriangles tris eye dir root closest = closest \/
  tri_hit tris eye dir root (findTriangles tris eye dir root closest).
Proof.
  revert closest. induction root as [n|n l IHl r IHr]; intros closest Hc.
  - right. cbn [findTriangles].
    destruct (fold_min_sound (rayTriangleIntersect eye dir) (getTriangles tris n) maxT
                ltac:(done) (rti_not_NaN eye dir)) as ([E|(tri & Ht & E)] & _ & _).
    + left. exact E.
    + right. exists n, tri. split_and!; [left|done|done].
  - cbn [findTriangles].
    assert (Hl : forall m, m ∈ leaf_nodes l -> m ∈ leaf_nodes (Inner n l r))
      by (intros m Hm; cbn [leaf_nodes]; apply elem_of_app; by left).
    assert (Hr : forall m, m ∈ leaf_nodes r -> m ∈ leaf_nodes (Inner n l r))
      by (intros m Hm; cbn [leaf_nodes]; apply elem_of_app; by right).
    apply (fold_preserve _ (fun v => v = closest \/ tri_hit tris eye dir (Inner n l r) v)); [by left|].
    intros acc [o t] Hinv.
    destruct o as [side|]; [|exact Hinv].
    destruct (nlt t acc); [|exact Hinv].
    assert (Hacc : acc <> NaN) by (destruct Hinv as [->|H]; [done|by eapply tri_hit_not_NaN]).
    set (res := if side then findTriangles tris eye dir l acc else findTriangles tris eye dir r acc).
    assert (Hres : res = acc \/ tri_hit tris eye dir (Inner n l r) res).
    { unfold res. destruct side.
      - destruct (IHl acc Hacc) as [E|E]; [by left|right]. exact (tri_hit_sub _ _ _ _ _ _ Hl E).
      - destruct (IHr acc Hacc) as [E|E]; [by left|right]. exact (tri_hit_sub _ _ _ _ _ _ Hr E). }
    assert (Hres' : res <> NaN) by (destruct Hres as [->|H]; [done|by eapply tri_hit_not_NaN]).
    destruct (Math_min_cases res acc Hres' Hacc) as [E|E]; rewrite E; [|exact Hinv].
    destruct Hres as [->|H]; [exact Hinv|by right].
Qed.

(** X24. [findTriangles]: the distance the traversal returns is the [closest]
    it was given or the distance of a triangle of one of the tree's
    leaves; it never produces any other value. *)
Theorem findTriangles_sound (tris : list Triangle) (eye dir : vec3) (root : tree) (closest : num) :
  closest <> NaN ->
  let r := findTriangles tris eye dir root closest in
  r = closest \/ r = maxT \/
  exists n tri, n ∈ leaf_nodes root /\ tri ∈ getTriangles tris n /\ r = rayTriangleIntersect eye dir tri.
Proof.
  intros Hc. cbv zeta. destruct (findTriangles_hit tris eye dir root closest Hc) as [E|[E|E]];
    [by left|right; by left|right; by right].
Qed.

Lemma padBuffer_shape_witness :
  repeat 0 10 <> [] /\
  exists (n : nat) (W H : Z),
    padBuffer 0 (repeat 0 10) 3 3 = Some (repeat 0 10 ++ repeat 0 n, (Fin (inject_Z W), Fin (inject_Z H))) /\
    (3 * W * H = 10 + Z.of_nat n)%Z.
Proof.
  split; [discriminate|].
  destruct (padBuffer_shape 0 (repeat 0 10) 3 3 ltac:(discriminate)) as (n & W & H & E & Hc & _).
  exists n, W, H. split; [exact E|exact Hc].
Defined.

Section RW.

Import RenderLoop RenderLoopRuns.

Lemma run_display_lag_witness :
  let r := run 3 (Some 2%Z) (-1)%Z (init true) in
  snd r = false /\ pingpong (fst r) = 2 /\ canvas (fst r) = 1%Z.
Proof.
  destruct (run_display_lag 2 (-1) 2 ltac:(lia) ltac:(lia) ltac:(lia) ltac:(lia)) as (A & B & _ & _ & C & _).
  split_and!; [exact A|exact B|exact C].
Defined.

Lemma run_saturates_witness :
  let r := run 7 (Some 2%Z) (-1)%Z (init true) in
  snd r = false /\ pingpong (fst r) = 3 /\ canvas (fst r) = 2%Z.
Proof.
  destruct (run_saturates 2 (-1) 3 ltac:(lia) ltac:(lia)) as (A & B & _ & C & _).
  split_and!; [exact A|exact B|exact C].
Defined.

Lemma run_upload_canvas_witness :
  let r := run 3 (Some 2%Z) 0%Z (init true) in
  snd r = true /\ pingpong (fst r) = 2 /\ canvas (fst r) = 1%Z.
Proof.
  destruct (run_upload_canvas 2 0 ltac:(lia) ltac:(lia)) as (A & B & C & _).
  split_and!; [exact A|exact B|exact C].
Defined.

Lemma run_no_budget_witness :
  let r := run 4 (Some 0%Z) (-1)%Z (init true) in
  snd r = false /\ passes (fst r) = [PQuad 0; PQuad 0; PQuad 0; PQuad 0].
Proof.
  destruct (run_no_budget (Some 0%Z) (-1) 4 ltac:(split; lia)) as (A & _ & _ & _ & B).
  split; [exact A|exact B].
Defined.

Lemma nonpositive_max_uploads_at_once_witness :
  let r := run 1 (Some 0%Z) 0%Z (init true) in
  snd r = true /\ canvas (fst r) = 0%Z /\ passes (fst r) = [PQuad 0; PUpload].
Proof. exact (nonpositive_max_uploads_at_once 0 0 ltac:(lia) ltac:(lia)). Defined.

End RW.

Lemma wheel_1200_locks_zoom_witness :
  Events.fovScale (Events.run_events (Events.MkEv false false true ∅ (Fin (1 # 2)))
    [Events.MouseWheel 1200; Events.KeyPress "w"; Events.MouseWheel (-120)]) = Fin 0.
Proof.
  exact (EventsProps.wheel_1200_locks_zoom (Events.MkEv false false true ∅ (Fin (1 # 2))) (1 # 2)
           [Events.KeyPress "w"; Events.MouseWheel (-120)] eq_refl).
Defined.

Definition shader_src : string := String.append "#version 300 es" (String nl "void main() {}").

Lemma commitPreprocessor_lines_witness :
  Forall (fun d => has_nl d = false) ["#define LEAF_SIZE 4"%string] /\
  split_nl (commitPreprocessor shader_src ["#define LEAF_SIZE 4"%string]) =
    ["#version 300 es"; "#define LEAF_SIZE 4"; "void main() {}"]%string.
Proof.
  assert (Hd : Forall (fun d => has_nl d = false) ["#define LEAF_SIZE 4"%string]) by (repeat constructor).
  split; [exact Hd|].
  exact (proj1 (commitPreprocessor_lines shader_src _ Hd) _ _ eq_refl).
Defined.

Lemma env_row_too_few_stops_witness :
  length [7] <= 1 /\ snd (fst (env_row [7] 5)) = None.
Proof. split; [cbn; lia|]. exact (env_row_too_few_stops [7] 5 ltac:(cbn; lia)). Defined.

Lemma findTriangles_sound_witness :
  let r := findTriangles [s1] eyeA (qv 0 0 (-1)) (Leaf (mkNode [s1] [[0]; [0]; [0]])) maxT in
  r = maxT \/ r = maxT \/
  exists n tri, n ∈ leaf_nodes (Leaf (mkNode [s1] [[0]; [0]; [0]])) /\ tri ∈ getTriangles [s1] n /\
                r = rayTriangleIntersect eyeA (qv 0 0 (-1)) tri.
Proof. exact (findTriangles_sound [s1] eyeA (qv 0 0 (-1)) _ maxT ltac:(discriminate)). Defined.
